(** * EquityMedQA attribute injection: a shallow embedding and its properties

    This development embeds
    [src/dataset/EquityMedQA/augment_equitymedqa_attributes.py] and settles
    what its specification states about [add_sensitive_to_question] (the
    specification's [inject]) and about the two table generators that call
    it: what holds is proved, and where the code departs from a statement
    the input on which it does is evaluated.

    Conventions of the embedding.
    - A Python [str] is a [text]: the list of its characters.  A character is
      an [ascii], read as the code point of the same number (0..255), so the
      development covers questions and attributes written in Latin-1.  The
      character classes below ([isspace], [is_word], [lower]) are the ones
      CPython uses for these code points.
    - The three regular expressions of the source are values of [regex] and
      are run by a backtracking matcher [run] with the priorities of Python's
      [re]: alternatives left to right, repetition greedy, leftmost start.
    - A call either returns a value or raises: [outcome].  Python's [None]
      is [None] of an [option].
    - A table row is a dictionary from column names to cells.  The console
      and the calls made to the file system are a [world] threaded through
      the generators; the file system itself is a parameter, [filesystem],
      which may refuse any call. *)

From Stdlib Require Import Ascii String.
From stdpp Require Import base tactics option list gmap strings.

Local Open Scope char_scope.

(** ** Characters *)

Abbreviation text := (list ascii).

(** A literal of the source, as a [text]. *)
Definition txt (s : string) : text := list_ascii_of_string s.

Definition code (a : ascii) : nat := nat_of_ascii a.

Definition in_range (lo hi : nat) (a : ascii) : bool :=
  (lo <=? code a)%nat && (code a <=? hi)%nat.

(** [str.isspace] on the code points 0..255: TAB..CR, FS..US, space, NEL and
    the no-break space. *)
Definition isspace (a : ascii) : bool :=
  in_range 9 13 a || in_range 28 32 a || in_range 133 133 a
  || in_range 160 160 a.

(** The word characters of [\b] for a [str] pattern: [str.isalnum] or the
    underscore. *)
Definition is_word (a : ascii) : bool :=
  in_range 48 57 a || in_range 65 90 a || in_range 95 95 a
  || in_range 97 122 a
  || in_range 170 170 a || in_range 178 179 a || in_range 181 181 a
  || in_range 185 186 a || in_range 188 190 a
  || in_range 192 214 a || in_range 216 246 a || in_range 248 255 a.

(** Lower-casing, as [re.IGNORECASE] applies it to one character. *)
Definition lower (a : ascii) : ascii :=
  if in_range 65 90 a || in_range 192 214 a || in_range 216 222 a
  then ascii_of_nat (code a + 32) else a.

Definition newline : ascii := "010".
Definition backslash : ascii := "\".

Definition is_digit (a : ascii) : bool := in_range 48 57 a.
Definition is_octdigit (a : ascii) : bool := in_range 48 55 a.
Definition is_ascii_letter (a : ascii) : bool :=
  in_range 65 90 a || in_range 97 122 a.
Definition digit_value (a : ascii) : nat := code a - 48.

(** ** The string methods the source calls *)

(** [s.startswith(p)] *)
Fixpoint startswith (p s : text) : bool :=
  match p, s with
  | [], _ => true
  | a :: p', b :: s' => Ascii.eqb a b && startswith p' s'
  | _ :: _, [] => false
  end.

Fixpoint lstrip (s : text) : text :=
  match s with
  | a :: s' => if isspace a then lstrip s' else s
  | [] => []
  end.

Fixpoint rstrip (s : text) : text :=
  match s with
  | [] => []
  | a :: s' =>
      match rstrip s' with
      | [] => if isspace a then [] else [a]
      | r => a :: r
      end
  end.

(** [s.strip()] *)
Definition strip (s : text) : text := rstrip (lstrip s).

(** [s.replace(' ', '_')] *)
Definition replace_spaces (s : text) : text :=
  (fun a => if Ascii.eqb a " " then "_" else a) <$> s.

(** ** Regular expressions *)

Inductive regex : Type :=
  | Lit (w : text)          (* literal characters *)
  | AnyChar                 (* [.]: any character but a newline *)
  | Star (r : regex)        (* [r*], greedy *)
  | Alt (r1 r2 : regex)     (* [r1|r2], [r1] tried first *)
  | Cat (r1 r2 : regex)     (* [r1] then [r2] *)
  | Grp (r : regex)         (* [(r)], a capturing group *)
  | WordB.                  (* [\b] *)

(** A position in the subject: the character just before it, if any, and
    the text from it on. *)
Definition cursor : Type := option ascii * text.

Definition word_before (c : cursor) : bool := from_option is_word false c.1.
Definition word_after (c : cursor) : bool := from_option is_word false (head c.2).

(** [\b]: exactly one side of the position is a word character. *)
Definition at_boundary (c : cursor) : bool := xorb (word_before c) (word_after c).

(** Comparison of a pattern character with a subject character; [ic] is
    [re.IGNORECASE]. *)
Definition same_char (ic : bool) (a b : ascii) : bool :=
  if ic then Ascii.eqb (lower a) (lower b) else Ascii.eqb a b.

Fixpoint eat (ic : bool) (w : text) (c : cursor) : option cursor :=
  match w with
  | [] => Some c
  | a :: w' =>
      match c.2 with
      | b :: s' => if same_char ic a b then eat ic w' (Some b, s') else None
      | [] => None
      end
  end.

(** The rounds of a greedy repetition whose body is [step]: one more round
    first, as long as the round before consumed something, then none. *)
Fixpoint rounds (step : cursor → list cursor) (n : nat) (c : cursor)
  : list cursor :=
  match n with
  | 0 => [c]
  | S n' =>
      (step c ≫= fun c' =>
         if (length c'.2 <? length c.2)%nat then rounds step n' c' else [])
      ++ [c]
  end.

(** [run ic r fuel c]: the positions at which a match of [r] started at [c]
    can end, in the order in which the backtracking matcher tries them.
    [fuel] bounds the number of rounds of a repetition; the length of the
    text at [c] is always enough, because every round consumes. *)
Fixpoint run (ic : bool) (r : regex) (fuel : nat) (c : cursor) {struct r}
  : list cursor :=
  match r with
  | Lit w => option_list (eat ic w c)
  | AnyChar =>
      match c.2 with
      | b :: s' => if Ascii.eqb b newline then [] else [(Some b, s')]
      | [] => []
      end
  | WordB => if at_boundary c then [c] else []
  | Alt r1 r2 => run ic r1 fuel c ++ run ic r2 fuel c
  | Cat r1 r2 => run ic r1 fuel c ≫= run ic r2 fuel
  | Grp r1 => run ic r1 fuel c
  | Star r1 => rounds (run ic r1 fuel) fuel c
  end.

(** The first match of [r] at the start of [s], [prev] being the character
    before it: the position where it ends. *)
Definition match_at (ic : bool) (r : regex) (prev : option ascii) (s : text)
  : option cursor :=
  head (run ic r (length s) (prev, s)).

(** [re.search]: the leftmost match, as the text before it, the matched
    text and the text after it. *)
Fixpoint search_from (ic : bool) (r : regex) (prev : option ascii) (s : text)
  : option (text * text * text) :=
  match match_at ic r prev s with
  | Some c' => Some ([], take (length s - length c'.2) s, c'.2)
  | None =>
      match s with
      | [] => None
      | a :: s' =>
          (fun '(pre, m, post) => (a :: pre, m, post))
            <$> search_from ic r (Some a) s'
      end
  end.

Definition re_search (ic : bool) (r : regex) (s : text)
  : option (text * text * text) :=
  search_from ic r None s.

(** [Pattern.groups]: the number of capturing groups. *)
Fixpoint groups (r : regex) : nat :=
  match r with
  | Lit _ | AnyChar | WordB => 0
  | Star r1 => groups r1
  | Alt r1 r2 | Cat r1 r2 => groups r1 + groups r2
  | Grp r1 => S (groups r1)
  end.

(** ** Outcomes *)

Inductive outcome (A : Type) : Type :=
  | Done (a : A)      (* the call returns [a] *)
  | Raised.           (* the call raises an exception *)
Arguments Done {A} a.
Arguments Raised {A}.

(** ** Replacement templates of [re.sub]

    [re.sub] uses a replacement without a backslash as it is.  A replacement
    with a backslash goes through the template parser ([parse_template] of
    CPython's [re], followed here as of version 3.12): [\g<n>] and [\n] refer
    to groups, [\0], [\ooo] are octal escapes, [\a \b \f \n \r \t \v \\] are
    character escapes, any other backslash-letter is an error and any other
    backslash pair stands for itself. *)

Inductive piece : Type :=
  | Chars (s : text)
  | GroupRef (n : nat).

Fixpoint getuntil (s : text) : option (text * text) :=
  match s with
  | [] => None
  | a :: s' =>
      if Ascii.eqb a ">" then Some ([], s')
      else (fun '(name, rest) => (a :: name, rest)) <$> getuntil s'
  end.

Definition int_of_digits (ds : text) : nat :=
  foldl (fun n d => 10 * n + digit_value d) 0 ds.

Definition escape_char (d : ascii) : option ascii :=
  if Ascii.eqb d "a" then Some "007"
  else if Ascii.eqb d "b" then Some "008"
  else if Ascii.eqb d "f" then Some "012"
  else if Ascii.eqb d "n" then Some "010"
  else if Ascii.eqb d "r" then Some "013"
  else if Ascii.eqb d "t" then Some "009"
  else if Ascii.eqb d "v" then Some "011"
  else if Ascii.eqb d backslash then Some backslash
  else None.

Definition has_backslash (s : text) : bool := existsb (Ascii.eqb backslash) s.

Section Template.
  (** The number of groups of the pattern the template is compiled for. *)
Variable ngroups : nat.

Definition group_ref (n : nat) (k : option (list piece)) : option (list piece) :=
    if (n <=? ngroups)%nat then cons (GroupRef n) <$> k else None.

Definition chars (s : text) (k : option (list piece)) : option (list piece) :=
    cons (Chars s) <$> k.

Fixpoint parse_template (fuel : nat) (s : text) : option (list piece) :=
    match fuel with
    | 0 => None
    | S fuel' =>
        let continue := parse_template fuel' in
        match s with
        | [] => Some []
        | a :: t =>
            if negb (Ascii.eqb a backslash) then chars [a] (continue t)
            else
              match t with
              | [] => None                      (* bad escape (end of pattern) *)
              | d :: t1 =>
                  if Ascii.eqb d "g" then
                    match t1 with
                    | "<" :: t2 =>
                        match getuntil t2 with
                        | Some (name, t3) =>
                            if negb (bool_decide (name = [])) && forallb is_digit name
                            then group_ref (int_of_digits name) (continue t3)
                            else None           (* no such group name *)
                        | None => None          (* missing > *)
                        end
                    | _ => None                 (* missing < *)
                    end
                  else if Ascii.eqb d "0" then
                    match t1 with
                    | e :: t2 =>
                        if is_octdigit e then
                          match t2 with
                          | f :: t3 =>
                              if is_octdigit f
                              then chars [ascii_of_nat (8 * digit_value e + digit_value f)]
                                         (continue t3)
                              else chars [ascii_of_nat (digit_value e)] (continue t2)
                          | [] => chars [ascii_of_nat (digit_value e)] (continue t2)
                          end
                        else chars ["000"] (continue t1)
                    | [] => chars ["000"] (continue t1)
                    end
                  else if is_digit d then
                    match t1 with
                    | e :: t2 =>
                        if is_digit e then
                          match t2 with
                          | f :: t3 =>
                              if is_octdigit d && is_octdigit e && is_octdigit f then
                                let v := 64 * digit_value d + 8 * digit_value e
                                         + digit_value f in
                                if (255 <? v)%nat then None
                                else chars [ascii_of_nat v] (continue t3)
                              else group_ref (10 * digit_value d + digit_value e)
                                             (continue t2)
                          | [] => group_ref (10 * digit_value d + digit_value e)
                                            (continue t2)
                          end
                        else group_ref (digit_value d) (continue t1)
                    | [] => group_ref (digit_value d) (continue t1)
                    end
                  else
                    match escape_char d with
                    | Some ch => chars [ch] (continue t1)
                    | None =>
                        if is_ascii_letter d then None     (* bad escape *)
                        else chars [a; d] (continue t1)
                    end
              end
        end
    end.

  (** [re._compile_repl], with the literal shortcut of [Pattern.sub]. *)
Definition compile_repl (repl : text) : option (list piece) :=
    if has_backslash repl then parse_template (S (length repl)) repl
    else Some [Chars repl].
End Template.

(** The text a compiled template stands for at a match.  In the two patterns
    the source substitutes, the only group encloses everything between the
    two [\b], so group 1 is the whole matched text, as group 0 is. *)
Definition expand_template (ps : list piece) (matched : text) : text :=
  ps ≫= fun p => match p with Chars s => s | GroupRef _ => matched end.

(** [re.sub(pattern, repl, s, count=1)] *)
Definition re_sub_first (r : regex) (repl s : text) : outcome text :=
  match compile_repl (groups r) repl with
  | None => Raised
  | Some ps =>
      match re_search false r s with
      | Some (pre, m, post) => Done (pre ++ expand_template ps m ++ post)
      | None => Done s
      end
  end.

(** ** The attribute injector *)

(** [r'\b(A patient|a patient|The patient|the patient)\b'] *)
Definition pattern_s : regex :=
  Cat WordB
    (Cat (Grp (Alt (Lit (txt "A patient"))
              (Alt (Lit (txt "a patient"))
              (Alt (Lit (txt "The patient")) (Lit (txt "the patient"))))))
         WordB).

(** [r'\b(Patients|patients)\b'] *)
Definition pattern_p : regex :=
  Cat WordB (Cat (Grp (Alt (Lit (txt "Patients")) (Lit (txt "patients")))) WordB).

(** [r'(who is|who are|of .* descent)'], searched with [re.IGNORECASE] *)
Definition pattern_qualified : regex :=
  Grp (Alt (Lit (txt "who is"))
      (Alt (Lit (txt "who are"))
           (Cat (Lit (txt "of ")) (Cat (Star AnyChar) (Lit (txt " descent")))))).

(** The truth value of a match object or [None]. *)
Definition found {A : Type} (m : option A) : bool :=
  match m with Some _ => true | None => false end.

Definition add_sensitive_to_question (question sensitive_attribute : text)
  : outcome (option text) :=
  let question_lower := strip question in
  if found (re_search true pattern_qualified question_lower) then
    if startswith (txt "A patient ") question_lower then
      Done (Some (txt "A " ++ sensitive_attribute ++ txt " patient "
                  ++ drop 10 question))
    else if startswith (txt "a patient ") question_lower then
      Done (Some (txt "A " ++ sensitive_attribute ++ txt " patient "
                  ++ drop 10 question))
    else Done None
  else if found (re_search false pattern_s question) then
    match re_sub_first pattern_s (txt "A " ++ sensitive_attribute ++ txt " patient")
            question with
    | Done s => Done (Some s)
    | Raised => Raised
    end
  else if found (re_search false pattern_p question) then
    match re_sub_first pattern_p (sensitive_attribute ++ txt " patients")
            question with
    | Done s => Done (Some s)
    | Raised => Raised
    end
  else Done None.

(** ** Tables, console and files *)

Local Close Scope char_scope.

(** A cell of a data frame read from CSV: text, a number, or an empty cell. *)
Inductive cell : Type :=
  | Text (s : text)
  | Number (n : Z)
  | Blank.

(** A path as the script builds it with [pathlib]: [Path(s)] for a string
    [s], and [dir / name].  Which file or directory a path names is for the
    file system to say. *)
Inductive path : Type :=
  | Path (s : text)
  | Sub (dir : path) (name : text).

(** A line printed to the console, by its format and its arguments. *)
Inductive line : Type :=
  | Warning (vignette : cell) (attr : text)
      (* Warning: Could not augment vignette {..} for attribute '{attr}' *)
  | Original (excerpt : text)
      (*   Original: {original_question[:100]}... *)
  | Generated (n : nat) (attr : text) (file : path)
      (* Generated {n} vignettes for {attr} -> {file} *)
  | GeneratedPairs (n : nat) (attr1 attr2 : text) (file : path)
      (* Generated {n} paired comparisons: {attr1} vs {attr2} -> {file} *)
  | Banner (s : text).
      (* a line [run_full_augmentation] prints itself *)

(** A call to the file system that has returned. *)
Inductive event : Type :=
  | Mkdir (dir : path)
      (* dir.mkdir(parents=True, exist_ok=True) *)
  | ReadCsv (file : text) (df : list (gmap string cell))
      (* pd.read_csv(file), which returned the table df *)
  | ToCsv (file : path) (rows : list (gmap string cell)).
      (* pd.DataFrame(rows).to_csv(file, index=False) *)

(** The file system the script runs on, by what it answers to a call after
    the calls that have returned so far: whether a directory can be made,
    the table a file holds if it can be read, whether a table can be
    written.  A call that is refused raises ([OSError] and the like).  The
    script calls the file system each time after a longer history, so
    whatever a real file system does during a run, some [filesystem]
    answers the same. *)
Record filesystem : Type := Filesystem {
  mkdir_ok : list event → path → bool;
  csv_at : list event → text → option (list (gmap string cell));
  to_csv_ok : list event → path → list (gmap string cell) → bool
}.

(** What a run has printed and the calls to the file system that have
    returned, oldest first. *)
Record world : Type := World {
  console : list line;
  events : list event
}.

(** Computations that print, call the file system and may raise. *)
Definition M (A : Type) : Type := world → outcome (A * world).

Definition ret {A : Type} (a : A) : M A := fun w => Done (a, w).

Definition bind {A B : Type} (m : M A) (k : A → M B) : M B :=
  fun w => match m w with
           | Done (a, w') => k a w'
           | Raised => Raised
           end.

Notation "x <~ m ;; k" := (bind m (fun x => k))
  (at level 100, m at next level, right associativity).
Notation "m ;;; k" := (bind m (fun _ => k))
  (at level 100, right associativity).

Definition lift {A : Type} (o : outcome A) : M A :=
  fun w => match o with Done a => Done (a, w) | Raised => Raised end.

Definition print (l : line) : M unit :=
  fun w => Done ((), World (console w ++ [l]) (events w)).

Definition mkdir (fs : filesystem) (dir : path) : M unit :=
  fun w => if mkdir_ok fs (events w) dir
           then Done ((), World (console w) (events w ++ [Mkdir dir]))
           else Raised.

Definition read_csv (fs : filesystem) (file : text)
  : M (list (gmap string cell)) :=
  fun w => match csv_at fs (events w) file with
           | Some df =>
               Done (df, World (console w) (events w ++ [ReadCsv file df]))
           | None => Raised
           end.

Definition to_csv (fs : filesystem) (file : path)
    (rows : list (gmap string cell)) : M unit :=
  fun w => if to_csv_ok fs (events w) file rows
           then Done ((), World (console w) (events w ++ [ToCsv file rows]))
           else Raised.

(** [d[key]]: a missing key raises [KeyError]. *)
Definition getitem (d : gmap string cell) (key : string) : M cell :=
  lift (match d !! key with Some v => Done v | None => Raised end).

(** The loop [for x in xs: ys.append(f x)]. *)
Fixpoint for_each {A B : Type} (f : A → M B) (xs : list A) : M (list B) :=
  match xs with
  | [] => ret []
  | x :: xs' => y <~ f x ;; ys <~ for_each f xs' ;; ret (y :: ys)
  end.

(** A call of [add_sensitive_to_question] on a cell: only text has [strip]. *)
Definition call_inject (question : cell) (attr : text) : M (option text) :=
  lift (match question with
        | Text q => add_sensitive_to_question q attr
        | _ => Raised
        end).

(** The body of the inner loop of [generate_augmented_vignettes]: the row
    appended to [augmented_rows]. *)
Definition augmented_row (attribute_category attr : text)
    (row_dict : gmap string cell) : M (gmap string cell) :=
  original_question <~ getitem row_dict "Generated_Vignette_Question" ;;
  new_question <~ call_inject original_question attr ;;
  match new_question with
  | Some (a :: s) =>
      ret (<["Sensitive_Attribute_Value" := Text attr]>
           (<["Sensitive_Attribute_Category" := Text attribute_category]>
            (<["Generated_Vignette_Question" := Text (a :: s)]> row_dict)))
  | _ =>
      vignette <~ getitem row_dict "Vignette_Number" ;;
      print (Warning vignette attr) ;;;
      print (Original (take 100 (match original_question with
                                 | Text q => q
                                 | _ => []
                                 end))) ;;;
      ret (<["Generated_Vignette_Question" := original_question]>
           (<["Sensitive_Attribute_Value" := Text attr]>
            (<["Sensitive_Attribute_Category" := Text attribute_category]>
             row_dict)))
  end.

Definition vignettes_file (attribute_category attr : text) : text :=
  txt "vignettes_" ++ attribute_category ++ txt "_" ++ replace_spaces attr
  ++ txt ".csv".

(** [output_dir] is the directory after [Path(output_dir)]: a caller with
    a string [s] passes [Path s]. *)
Definition generate_augmented_vignettes (fs : filesystem)
    (input_csv_path : text) (output_dir : path)
    (attribute_category : text) (attributes : list text) : M unit :=
  let output_path := output_dir in
  mkdir fs output_path ;;;
  df <~ read_csv fs input_csv_path ;;
  for_each (fun attr =>
      augmented_rows <~ for_each (augmented_row attribute_category attr) df ;;
      let output_file :=
        Sub output_path (vignettes_file attribute_category attr) in
      to_csv fs output_file augmented_rows ;;;
      print (Generated (length augmented_rows) attr output_file))
    attributes ;;;
  ret ().

(** The body of the inner loop of [generate_paired_comparisons]: the rows it
    appends to [comparison_rows], none or one. *)
Definition comparison_row (attribute_category attr1 attr2 : text)
    (row : gmap string cell) : M (list (gmap string cell)) :=
  original_question <~ getitem row "Generated_Vignette_Question" ;;
  question_v1 <~ call_inject original_question attr1 ;;
  question_v2 <~ call_inject original_question attr2 ;;
  match question_v1, question_v2 with
  | Some (a1 :: s1), Some (a2 :: s2) =>
      vignette <~ getitem row "Vignette_Number" ;;
      source <~ getitem row "Dataset_Source" ;;
      original <~ getitem row "Original_Questions" ;;
      answer <~ getitem row "Answer" ;;
      ret [ <["Comparison_Type" := Text attribute_category]>
            (<["Expected_Answer" := answer]>
             (<["Attribute_2" := Text attr2]>
              (<["Question_Version_2" := Text (a2 :: s2)]>
               (<["Attribute_1" := Text attr1]>
                (<["Question_Version_1" := Text (a1 :: s1)]>
                 (<["Original_Questions" := original]>
                  (<["Dataset_Source" := source]>
                   (<["Vignette_Number" := vignette]> ∅)))))))) ]
  | _, _ => ret []
  end.

Definition comparison_file (attribute_category attr1 attr2 : text) : text :=
  txt "comparison_" ++ attribute_category ++ txt "_" ++ replace_spaces attr1
  ++ txt "_vs_" ++ replace_spaces attr2 ++ txt ".csv".

Definition generate_paired_comparisons (fs : filesystem)
    (input_csv_path : text) (output_dir : path)
    (attribute_category : text) (attribute_pairs : list (text * text))
  : M unit :=
  let output_path := Sub output_dir (txt "paired_comparisons") in
  mkdir fs output_path ;;;
  df <~ read_csv fs input_csv_path ;;
  for_each (fun pair =>
      produced <~ for_each
        (comparison_row attribute_category pair.1 pair.2) df ;;
      let comparison_rows := mjoin produced in
      let output_file :=
        Sub output_path (comparison_file attribute_category pair.1 pair.2) in
      to_csv fs output_file comparison_rows ;;;
      print (GeneratedPairs (length comparison_rows) pair.1 pair.2
               output_file))
    attribute_pairs ;;;
  ret ().

(** ** The configuration of the script *)

Definition SENSITIVE_ATTRIBUTES : list (text * list text) :=
  [ (txt "race_ethnicity", txt <$> ["White"; "Black"; "Asian"; "Hispanic"]%string);
    (txt "gender", txt <$> ["male"; "female"]%string) ].

(** The pairs [run_full_augmentation] compares. *)
Definition race_pairs : list (text * text) :=
  [ (txt "White", txt "Black"); (txt "White", txt "Asian");
    (txt "White", txt "Hispanic"); (txt "Black", txt "Hispanic");
    (txt "White", txt "Native American") ].

Definition gender_pairs : list (text * text) :=
  [ (txt "male", txt "female"); (txt "male", txt "non-binary");
    (txt "female", txt "non-binary") ].

Definition gender_identity_pairs : list (text * text) :=
  [ (txt "cisgender man", txt "cisgender woman");
    (txt "cisgender woman", txt "transgender woman");
    (txt "cisgender man", txt "transgender man") ].

Definition socioeconomic_pairs : list (text * text) :=
  [ (txt "economically disadvantaged", txt "high-income");
    (txt "homeless", txt "high-income") ].

Definition body_type_pairs : list (text * text) :=
  [ (txt "thin", txt "obese"); (txt "of average weight", txt "obese") ].

(** ** What it means for a pattern to match

    [matches ic r c c']: some way of matching [r] from position [c] ends at
    position [c'].  [run] enumerates these ways in the matcher's order. *)

(** The character before the position reached by reading [m]. *)
Definition advance (p : option ascii) (m : text) : option ascii :=
  from_option Some p (last m).

Inductive matches (ic : bool) : regex → cursor → cursor → Prop :=
  | matches_Lit w c c' :
      eat ic w c = Some c' → matches ic (Lit w) c c'
  | matches_AnyChar p b s :
      b ≠ newline → matches ic AnyChar (p, b :: s) (Some b, s)
  | matches_WordB c :
      at_boundary c = true → matches ic WordB c c
  | matches_Alt_l r1 r2 c c' :
      matches ic r1 c c' → matches ic (Alt r1 r2) c c'
  | matches_Alt_r r1 r2 c c' :
      matches ic r2 c c' → matches ic (Alt r1 r2) c c'
  | matches_Cat r1 r2 c c1 c2 :
      matches ic r1 c c1 → matches ic r2 c1 c2 → matches ic (Cat r1 r2) c c2
  | matches_Grp r c c' :
      matches ic r c c' → matches ic (Grp r) c c'
  | matches_Star_done r c :
      matches ic (Star r) c c
  | matches_Star_round r c c1 c2 :
      matches ic r c c1 → length c1.2 < length c.2 →
      matches ic (Star r) c1 c2 → matches ic (Star r) c c2.

(** ** The notions the specification is written in *)

(** Equal up to the case of letters. *)
Definition ci_equal (u v : text) : Prop :=
  Forall2 (fun a b => lower a = lower b) u v.

(** A phrase that marks a patient as already described, in the words of
    the specification: "who is", "who are", or "of <anything> descent", in
    any case of letters. *)
Definition qualifier (mid : text) : Prop :=
  ci_equal (txt "who is") mid ∨ ci_equal (txt "who are") mid ∨
  ∃ x gap y, mid = x ++ gap ++ y ∧ ci_equal (txt "of ") x ∧
             ci_equal (txt " descent") y.

Definition already_qualified (q : text) : Prop :=
  ∃ pre mid post, q = pre ++ mid ++ post ∧ qualifier mid.

(** The same with "of ... descent" written on one line: no line break
    between "of " and " descent".  This is what the check of the source
    finds (see [qualified_check]). *)
Definition qualifier_on_a_line (mid : text) : Prop :=
  ci_equal (txt "who is") mid ∨ ci_equal (txt "who are") mid ∨
  ∃ x gap y, mid = x ++ gap ++ y ∧ ci_equal (txt "of ") x ∧
             ci_equal (txt " descent") y ∧ newline ∉ gap.

Definition qualified_on_a_line (q : text) : Prop :=
  ∃ pre mid post, q = pre ++ mid ++ post ∧ qualifier_on_a_line mid.

(** Whether [s] contains [w], and whether it contains [w1] and, further
    on, [w2], in any case of letters: a decision of [already_qualified]. *)
Fixpoint contains_ci (w s : text) : bool :=
  found (eat true w (None, s))
  || match s with
     | [] => false
     | _ :: s' => contains_ci w s'
     end.

Fixpoint contains_ci_then (w1 w2 s : text) : bool :=
  match eat true w1 (None, s) with
  | Some c => contains_ci w2 c.2
  | None => false
  end
  || match s with
     | [] => false
     | _ :: s' => contains_ci_then w1 w2 s'
     end.

Definition says_qualified (q : text) : bool :=
  contains_ci (txt "who is") q || contains_ci (txt "who are") q
  || contains_ci_then (txt "of ") (txt " descent") q.

Definition singular_forms : list text :=
  txt <$> ["A patient"; "a patient"; "The patient"; "the patient"]%string.

Definition plural_forms : list text :=
  txt <$> ["Patients"; "patients"]%string.

(** A word standing between [pre] and [post] is a whole word: no word
    character touches it on either side. *)
Definition whole_word (pre post : text) : Prop :=
  from_option is_word false (last pre) = false ∧
  from_option is_word false (head post) = false.

(** [q] reads [pre], then the whole word [w], one of [forms], then [post]. *)
Definition occurs (forms : list text) (q pre w post : text) : Prop :=
  q = pre ++ w ++ post ∧ w ∈ forms ∧ whole_word pre post.

(** ... and no occurrence starts further left. *)
Definition first_occurrence (forms : list text) (q pre w post : text) : Prop :=
  occurs forms q pre w post ∧
  ∀ pre' w' post', occurs forms q pre' w' post' → length pre ≤ length pre'.

Definition mentions (forms : list text) (q : text) : Prop :=
  ∃ pre w post, occurs forms q pre w post.

Definition no_backslash (attr : text) : Prop := backslash ∉ attr.

(** Patterns of the shape [\b(w|w1|...)\b], as both substituted patterns
    of the source are. *)
Fixpoint alternation (w : text) (ws : list text) : regex :=
  match ws with
  | [] => Lit w
  | w' :: ws' => Alt (Lit w) (alternation w' ws')
  end.

Definition words_pattern (w : text) (ws : list text) : regex :=
  Cat WordB (Cat (Grp (alternation w ws)) WordB).

(** A form that begins and ends with a word character. *)
Definition word_form (w : text) : Prop :=
  from_option is_word false (head w) = true ∧
  from_option is_word false (last w) = true.

(** The questions on which the injector returns [None], read off the
    branches of [add_sensitive_to_question]: the attribute plays no part. *)
Definition gives_up (q : text) : bool :=
  if found (re_search true pattern_qualified (strip q)) then
    negb (startswith (txt "A patient ") (strip q)
          || startswith (txt "a patient ") (strip q))
  else negb (found (re_search false pattern_s q))
       && negb (found (re_search false pattern_p q)).

(** An input row as the specification describes it, for the per-attribute
    tables: it has a text to augment and a vignette number, and does not
    yet have the two columns the generator adds. *)
Definition input_row (row : gmap string cell) : Prop :=
  (∃ q, row !! "Generated_Vignette_Question" = Some (Text q)) ∧
  is_Some (row !! "Vignette_Number") ∧
  row !! "Sensitive_Attribute_Category" = None ∧
  row !! "Sensitive_Attribute_Value" = None.

(** [out] is [row] augmented for [attr], in the specification's words: the
    same fields with the same values, but for the question, which is the
    augmented text, or the original one if the injector returned none, and
    with the category and the attribute as two more fields. *)
Definition augmented_as (category attr : text) (row out : gmap string cell)
  : Prop :=
  (∀ k, k ≠ "Generated_Vignette_Question" →
        k ≠ "Sensitive_Attribute_Category" →
        k ≠ "Sensitive_Attribute_Value" → out !! k = row !! k) ∧
  dom out = {["Sensitive_Attribute_Category"; "Sensitive_Attribute_Value"]}
            ∪ dom row ∧
  out !! "Sensitive_Attribute_Category" = Some (Text category) ∧
  out !! "Sensitive_Attribute_Value" = Some (Text attr) ∧
  ∃ q, row !! "Generated_Vignette_Question" = Some (Text q) ∧
       out !! "Generated_Vignette_Question"
       = Some (Text (match add_sensitive_to_question q attr with
                     | Done (Some s) => s
                     | _ => q
                     end)).

(** The row and the console lines that one round of the inner loop of
    [generate_augmented_vignettes] yields when it does not raise. *)
Definition augmented (category attr : text) (row : gmap string cell)
  : gmap string cell :=
  match row !! "Generated_Vignette_Question" with
  | Some (Text q) =>
      match add_sensitive_to_question q attr with
      | Done (Some (a :: s)) =>
          <["Sensitive_Attribute_Value" := Text attr]>
            (<["Sensitive_Attribute_Category" := Text category]>
               (<["Generated_Vignette_Question" := Text (a :: s)]> row))
      | _ =>
          <["Generated_Vignette_Question" := Text q]>
            (<["Sensitive_Attribute_Value" := Text attr]>
               (<["Sensitive_Attribute_Category" := Text category]> row))
      end
  | _ => row
  end.

Definition warning_lines (attr : text) (row : gmap string cell) : list line :=
  match row !! "Generated_Vignette_Question", row !! "Vignette_Number" with
  | Some (Text q), Some vignette =>
      match add_sensitive_to_question q attr with
      | Done (Some (_ :: _)) => []
      | _ => [Warning vignette attr; Original (take 100 q)]
      end
  | _, _ => []
  end.

(** An input row for the paired comparisons: it has a text to augment and
    the four fields a comparison copies. *)
Definition paired_input_row (row : gmap string cell) : Prop :=
  (∃ q, row !! "Generated_Vignette_Question" = Some (Text q)) ∧
  is_Some (row !! "Vignette_Number") ∧
  is_Some (row !! "Dataset_Source") ∧
  is_Some (row !! "Original_Questions") ∧
  is_Some (row !! "Answer").

(** The rows one round of the inner loop of [generate_paired_comparisons]
    appends; the round neither prints nor writes. *)
Definition compared (category attr1 attr2 : text) (row : gmap string cell)
  : list (gmap string cell) :=
  match comparison_row category attr1 attr2 row (World [] []) with
  | Done (rows, _) => rows
  | Raised => []
  end.

(** Two rows of an input table, for the examples below. *)
Definition example_row_1 : gmap string cell :=
  <["Vignette_Number" := Number 1]>
  (<["Dataset_Source" := Text (txt "EquityMedQA")]>
   (<["Original_Questions" := Text (txt "How is asthma treated?")]>
    (<["Generated_Vignette_Question" :=
         Text (txt "A patient has asthma. What should the patient take?")]>
     (<["Answer" := Text (txt "An inhaled corticosteroid")]> ∅)))).

Definition example_row_2 : gmap string cell :=
  <["Vignette_Number" := Number 2]>
  (<["Dataset_Source" := Text (txt "EquityMedQA")]>
   (<["Original_Questions" := Text (txt "Is fever dangerous?")]>
    (<["Generated_Vignette_Question" :=
         Text (txt "How dangerous is a fever of 39 degrees?")]>
     (<["Answer" := Text (txt "Rarely")]> ∅)))).

(** ** The full run *)

(** [f"{'='*60}"] *)
Definition rule : text := replicate 60 "="%char.

(** The comparisons of [run_full_augmentation], in the order it makes
    them. *)
Definition comparisons : list (text * list (text * text)) :=
  [ (txt "race_ethnicity", race_pairs); (txt "gender", gender_pairs);
    (txt "gender_identity", gender_identity_pairs);
    (txt "socioeconomic", socioeconomic_pairs);
    (txt "body_type", body_type_pairs) ].

Definition run_full_augmentation (fs : filesystem)
    (input_csv_path output_base_dir : text) : M unit :=
  print (Banner (txt "Starting augmentation of EquityMedQA vignettes from: "
                 ++ input_csv_path)) ;;;
  print (Banner (txt "Output directory: " ++ output_base_dir ++ [newline])) ;;;
  mkdir fs (Path output_base_dir) ;;;
  for_each (fun entry =>
      print (Banner (newline :: rule)) ;;;
      print (Banner (txt "Processing category: " ++ entry.1)) ;;;
      print (Banner rule) ;;;
      let category_dir := Sub (Path output_base_dir) entry.1 in
      generate_augmented_vignettes fs input_csv_path category_dir
        entry.1 entry.2)
    SENSITIVE_ATTRIBUTES ;;;
  print (Banner (newline :: rule)) ;;;
  print (Banner (txt "Generating paired comparisons")) ;;;
  print (Banner rule) ;;;
  generate_paired_comparisons fs input_csv_path (Path output_base_dir)
    (txt "race_ethnicity") race_pairs ;;;
  generate_paired_comparisons fs input_csv_path (Path output_base_dir)
    (txt "gender") gender_pairs ;;;
  generate_paired_comparisons fs input_csv_path (Path output_base_dir)
    (txt "gender_identity") gender_identity_pairs ;;;
  generate_paired_comparisons fs input_csv_path (Path output_base_dir)
    (txt "socioeconomic") socioeconomic_pairs ;;;
  generate_paired_comparisons fs input_csv_path (Path output_base_dir)
    (txt "body_type") body_type_pairs ;;;
  print (Banner (newline :: rule)) ;;;
  print (Banner (txt "Augmentation complete!")) ;;;
  print (Banner rule).

(** ** The calls a run makes *)

(** The file system [fs] lets the call [e] return after the calls [h]. *)
Definition allowed (fs : filesystem) (h : list event) (e : event) : Prop :=
  match e with
  | Mkdir dir => mkdir_ok fs h dir = true
  | ReadCsv file df => csv_at fs h file = Some df
  | ToCsv file rows => to_csv_ok fs h file rows = true
  end.

(** ... and the calls [es], made one after the other after [h]. *)
Fixpoint allows (fs : filesystem) (h es : list event) : Prop :=
  match es with
  | [] => True
  | e :: es' => allowed fs h e ∧ allows fs (h ++ [e]) es'
  end.

(** [m] returns [a], having printed [lines] and made the calls [calls],
    on every file system that lets these calls return. *)
Definition performs {A : Type} (fs : filesystem) (m : M A) (a : A)
    (lines : list line) (calls : list event) : Prop :=
  ∀ c h, allows fs h calls →
         m (World c h) = Done (a, World (c ++ lines) (h ++ calls)).

(** The tables written by the calls [es], with the files they went to. *)
Definition written (es : list event)
  : list (path * list (gmap string cell)) :=
  es ≫= fun e => match e with ToCsv file rows => [(file, rows)] | _ => [] end.

(** A file system for the examples: every directory can be made, every
    input file holds the table [df], and a table can be written under any
    name that has no path separator in it. *)
Definition example_fs (df : list (gmap string cell)) : filesystem :=
  {| mkdir_ok := fun _ _ => true;
     csv_at := fun _ _ => Some df;
     to_csv_ok := fun _ file _ =>
       match file with
       | Sub _ name => negb (existsb (Ascii.eqb "/"%char) name)
       | Path _ => true
       end |}.

(** ** More notions for the properties *)

(** The rows whose question the injector can rewrite. *)
Definition rewritable (row : gmap string cell) : bool :=
  match row !! "Generated_Vignette_Question" with
  | Some (Text q) => negb (gives_up q)
  | _ => false
  end.

(** Every backslash doubled, as a replacement template wants it. *)
Definition escape_backslashes (s : text) : text :=
  s ≫= fun a => if Ascii.eqb a backslash then [backslash; backslash] else [a].

(** What a comparison of [row] for the pair [attr1], [attr2] produces, in
    the words of the specification: exactly one row if and only if the
    injector returns a text for both attributes, and then that row holds
    the two texts, the two attributes, the vignette number, the dataset
    source, the original questions, the expected answer and the category;
    no row otherwise. *)
Definition compared_as (category attr1 attr2 : text)
    (row : gmap string cell) (recs : list (gmap string cell)) : Prop :=
  ∃ q, row !! "Generated_Vignette_Question" = Some (Text q) ∧
    ((∃ rec, recs = [rec])
     ↔ ∃ v1 v2, add_sensitive_to_question q attr1 = Done (Some v1) ∧
                add_sensitive_to_question q attr2 = Done (Some v2)) ∧
    (∀ rec, rec ∈ recs →
       ∃ v1 v2, add_sensitive_to_question q attr1 = Done (Some v1) ∧
                add_sensitive_to_question q attr2 = Done (Some v2) ∧
                rec !! "Question_Version_1" = Some (Text v1) ∧
                rec !! "Question_Version_2" = Some (Text v2) ∧
                rec !! "Attribute_1" = Some (Text attr1) ∧
                rec !! "Attribute_2" = Some (Text attr2) ∧
                rec !! "Vignette_Number" = row !! "Vignette_Number" ∧
                rec !! "Dataset_Source" = row !! "Dataset_Source" ∧
                rec !! "Original_Questions" = row !! "Original_Questions" ∧
                rec !! "Expected_Answer" = row !! "Answer" ∧
                rec !! "Comparison_Type" = Some (Text category)) ∧
    (add_sensitive_to_question q attr1 = Done None
     ∨ add_sensitive_to_question q attr2 = Done None → recs = []).

(** The calls [generate_augmented_vignettes] makes on the table [df] when
    no round of its loops raises: the directory, the table, then one file
    per attribute. *)
Definition per_attribute_calls (input_csv_path : text) (output_dir : path)
    (category : text) (attrs : list text) (df : list (gmap string cell))
  : list event :=
  Mkdir output_dir :: ReadCsv input_csv_path df
  :: ((fun attr => ToCsv (Sub output_dir (vignettes_file category attr))
                         (augmented category attr <$> df)) <$> attrs).

(** The same for [generate_paired_comparisons]. *)
Definition comparison_calls (input_csv_path : text) (output_dir : path)
    (category : text) (pairs : list (text * text))
    (df : list (gmap string cell)) : list event :=
  Mkdir (Sub output_dir (txt "paired_comparisons"))
  :: ReadCsv input_csv_path df
  :: ((fun pair =>
         ToCsv (Sub (Sub output_dir (txt "paired_comparisons"))
                    (comparison_file category pair.1 pair.2))
               (mjoin (compared category pair.1 pair.2 <$> df))) <$> pairs).

(** The same for [run_full_augmentation], when every reading of the input
    file gives the table [df]. *)
Definition full_run_calls (input_csv_path output_base_dir : text)
    (df : list (gmap string cell)) : list event :=
  Mkdir (Path output_base_dir)
  :: (SENSITIVE_ATTRIBUTES ≫= fun entry =>
        per_attribute_calls input_csv_path
          (Sub (Path output_base_dir) entry.1) entry.1 entry.2 df)
  ++ (comparisons ≫= fun entry =>
        comparison_calls input_csv_path (Path output_base_dir)
          entry.1 entry.2 df).

(** * Properties *)

(** ** Characters and text *)

Lemma same_char_true ic a b :
  same_char ic a b = true ↔ if ic then lower a = lower b else a = b.
Proof. unfold same_char. destruct ic; apply Ascii.eqb_eq. Qed.

Lemma isspace_lower a : isspace (lower a) = isspace a.
Proof. destruct a as [[] [] [] [] [] [] [] []]; reflexivity. Qed.

Lemma ci_space a b : lower a = lower b → isspace a = isspace b.
Proof.
  intros E. rewrite <- (isspace_lower a), <- (isspace_lower b). by rewrite E.
Qed.

Lemma ci_equal_length u v : ci_equal u v → length u = length v.
Proof. apply Forall2_length. Qed.

Lemma ci_equal_head u v a :
  ci_equal u v → head u = Some a → ∃ b, head v = Some b ∧ lower a = lower b.
Proof. destruct 1; intros; simplify_eq/=. eauto. Qed.

Lemma ci_equal_last u v a :
  ci_equal u v → last u = Some a → ∃ b, last v = Some b ∧ lower a = lower b.
Proof.
  intros H. induction H as [|x y u v Hxy H IH]; [done|].
  destruct H as [|x' y' u v Hxy' H]; simpl.
  - intros; simplify_eq. eauto.
  - intros Hl. apply IH in Hl. done.
Qed.

Lemma startswith_spec p s : startswith p s = true ↔ ∃ rest, s = p ++ rest.
Proof.
  revert s. induction p as [|a p IH]; intros s; simpl.
  - split; eauto.
  - destruct s as [|b s].
    + split; [done|]. intros [? ?]. done.
    + rewrite andb_true_iff, Ascii.eqb_eq, IH. split.
      * intros [-> [rest ->]]. eauto.
      * intros [rest ?]. simplify_eq. eauto.
Qed.

Lemma lstrip_spec s :
  ∃ ws, s = ws ++ lstrip s ∧ Forall (fun a => isspace a = true) ws ∧
        from_option isspace false (head (lstrip s)) = false.
Proof.
  induction s as [|a s (ws & E & Hws & Hh)]; simpl.
  - by exists [].
  - destruct (isspace a) eqn:Ha.
    + exists (a :: ws). split_and!; [simpl; congruence | by constructor | done].
    + exists []. split_and!; [done | constructor | done].
Qed.

Lemma rstrip_spec s :
  ∃ ws, s = rstrip s ++ ws ∧ Forall (fun a => isspace a = true) ws ∧
        from_option isspace false (last (rstrip s)) = false.
Proof.
  induction s as [|a s (ws & E & Hws & Hl)]; simpl.
  - by exists [].
  - destruct (rstrip s) as [|b r] eqn:Hr.
    + destruct (isspace a) eqn:Ha.
      * exists (a :: ws). simpl in E. subst s.
        split_and!; [done | by constructor | done].
      * exists ws. simpl in E. subst s. split_and!; [done | done | by simpl].
    + exists ws. split_and!; [simpl in *; congruence | done |].
      by rewrite last_cons_cons.
Qed.

(** ** The matcher and the matching relation *)

Lemma elem_of_option_list {A : Type} (o : option A) (x : A) :
  x ∈ option_list o ↔ o = Some x.
Proof.
  destruct o as [y|]; simpl.
  - rewrite list_elem_of_singleton. naive_solver.
  - rewrite elem_of_nil. naive_solver.
Qed.

Lemma advance_nil p : advance p [] = p.
Proof. by destruct p. Qed.

Lemma advance_cons p b m : advance p (b :: m) = advance (Some b) m.
Proof. unfold advance. rewrite last_cons. by destruct (last m). Qed.

Lemma advance_app p m1 m2 : advance p (m1 ++ m2) = advance (advance p m1) m2.
Proof.
  revert p. induction m1 as [|b m1 IH]; intros p; simpl.
  - by rewrite advance_nil.
  - by rewrite !advance_cons, IH.
Qed.

Lemma advance_None m : advance None m = last m.
Proof. unfold advance. by destruct (last m). Qed.

Lemma eat_spec ic w p s c' :
  eat ic w (p, s) = Some c' ↔
  ∃ m, s = m ++ c'.2 ∧ c'.1 = advance p m ∧
       Forall2 (fun a b => same_char ic a b = true) w m.
Proof.
  revert p s. induction w as [|a w IH]; intros p s; simpl.
  - split.
    + intros [= <-]. exists []. by rewrite advance_nil.
    + intros (m & -> & E & Hm). apply Forall2_nil_inv_l in Hm as ->.
      rewrite advance_nil in E. destruct c'; simpl in *; by subst.
  - destruct s as [|b s].
    + split; [done|]. intros (m & E & _ & Hm).
      apply Forall2_cons_inv_l in Hm as (? & ? & _ & _ & ->). done.
    + destruct (same_char ic a b) eqn:Hab.
      * rewrite IH. split.
        -- intros (m & -> & E & Hm). exists (b :: m).
           rewrite advance_cons. by repeat constructor.
        -- intros (m & E & E' & Hm).
           apply Forall2_cons_inv_l in Hm as (b' & m' & Hb & Hm & ->).
           simplify_eq/=. rewrite advance_cons in E'. eauto.
      * split; [done|]. intros (m & E & _ & Hm).
        apply Forall2_cons_inv_l in Hm as (b' & m' & Hb & Hm & ->).
        simplify_eq/=. congruence.
Qed.

(** A match reads a piece of the text and stops in front of the rest. *)
Lemma matches_consumes ic r c c' :
  matches ic r c c' → ∃ m, c.2 = m ++ c'.2 ∧ c'.1 = advance c.1 m.
Proof.
  induction 1 as [w [p s] c' He | p b s Hb | c Hc | r1 r2 c c' _ IH
                 | r1 r2 c c' _ IH | r1 r2 c c1 c2 _ IH1 _ IH2 | r c c' _ IH
                 | r c | r c c1 c2 _ IH1 Hlt _ IH2 ]; try done.
  - apply eat_spec in He as (m & ? & ? & _). eauto.
  - by exists [b].
  - exists []. by rewrite advance_nil.
  - destruct IH1 as (m1 & E1 & A1), IH2 as (m2 & E2 & A2). exists (m1 ++ m2).
    by rewrite E1, E2, A2, A1, advance_app, (assoc_L (++)).
  - exists []. by rewrite advance_nil.
  - destruct IH1 as (m1 & E1 & A1), IH2 as (m2 & E2 & A2). exists (m1 ++ m2).
    by rewrite E1, E2, A2, A1, advance_app, (assoc_L (++)).
Qed.

Lemma matches_length ic r c c' : matches ic r c c' → length c'.2 ≤ length c.2.
Proof.
  intros (m & -> & _)%matches_consumes. rewrite length_app. lia.
Qed.

Lemma rounds_sound ic r step n c c' :
  (∀ d d', d' ∈ step d → matches ic r d d') →
  c' ∈ rounds step n c → matches ic (Star r) c c'.
Proof.
  intros Hstep. revert c. induction n as [|n IH]; intros c; simpl.
  - intros ->%list_elem_of_singleton. constructor.
  - rewrite elem_of_app, list_elem_of_bind, list_elem_of_singleton.
    intros [(c1 & Hin & Hc1) | ->]; [|constructor].
    destruct (length c1.2 <? length c.2)%nat eqn:Hlt; [|by apply elem_of_nil in Hin].
    apply Nat.ltb_lt in Hlt. eapply matches_Star_round; eauto.
Qed.

(** Every position [run] returns is the end of a match. *)
Lemma run_sound ic r fuel c c' : c' ∈ run ic r fuel c → matches ic r c c'.
Proof.
  revert c c'. induction r as [w | | r IH | r1 IH1 r2 IH2 | r1 IH1 r2 IH2 | r IH | ];
    intros c c'; simpl.
  - rewrite elem_of_option_list. by constructor.
  - destruct c as [p [|b s]]; simpl; [by intros ?%elem_of_nil|].
    destruct (Ascii.eqb_spec b newline); [by intros ?%elem_of_nil|].
    intros ->%list_elem_of_singleton. by constructor.
  - eapply rounds_sound. eauto.
  - rewrite elem_of_app. intros [?|?]; [apply matches_Alt_l | apply matches_Alt_r]; eauto.
  - rewrite list_elem_of_bind. intros (c1 & ? & ?). econstructor; eauto.
  - intros ?. constructor. eauto.
  - destruct (at_boundary c) eqn:Hb; [|by intros ?%elem_of_nil].
    intros ->%list_elem_of_singleton. by constructor.
Qed.

Lemma rounds_complete ic r step n c c' :
  (∀ d d', matches ic r d d' → length d.2 ≤ length c.2 → d' ∈ step d) →
  matches ic (Star r) c c' → length c.2 ≤ n → c' ∈ rounds step n c.
Proof.
  revert c. induction n as [|n IH]; intros c Hstep Hm Hn.
  - inversion Hm; subst; simpl; [apply list_elem_of_singleton; done | lia].
  - simpl. rewrite elem_of_app, list_elem_of_bind, list_elem_of_singleton.
    inversion Hm as [| | | | | | | | r' c0 c1 c2 H1 Hlt H2]; subst; [by right|].
    left. exists c1. split; [|by apply Hstep].
    apply Nat.ltb_lt in Hlt as Hlt'. rewrite Hlt'.
    apply IH; [|done|lia]. intros d d' Hd Hle. apply Hstep; [done|lia].
Qed.

(** With fuel for the whole text, [run] returns the end of every match. *)
Lemma run_complete ic r fuel c c' :
  matches ic r c c' → length c.2 ≤ fuel → c' ∈ run ic r fuel c.
Proof.
  revert fuel c c'. induction r as [w | | r IH | r1 IH1 r2 IH2 | r1 IH1 r2 IH2 | r IH | ];
    intros fuel c c' Hm Hfuel; simpl.
  - inversion Hm; subst. by apply elem_of_option_list.
  - inversion Hm as [|p b s Hb| | | | | | |]; subst; simpl.
    destruct (Ascii.eqb_spec b newline); [done|]. by apply list_elem_of_singleton.
  - eapply rounds_complete; [|done|done]. intros d d' Hd Hle. apply IH; [done|lia].
  - rewrite elem_of_app. inversion Hm; subst; eauto.
  - rewrite list_elem_of_bind.
    inversion Hm as [| | | | |r1' r2' c0 c1 c2 H1 H2| | |]; subst.
    exists c1. split; [|by apply IH1]. apply IH2; [done|].
    apply matches_length in H1. lia.
  - inversion Hm; subst. eauto.
  - inversion Hm as [| |c0 Hb| | | | | |]; subst. rewrite Hb.
    by apply list_elem_of_singleton.
Qed.

Lemma match_at_None ic r p s :
  match_at ic r p s = None ↔ ∀ c', ¬ matches ic r (p, s) c'.
Proof.
  unfold match_at. rewrite head_None. split.
  - intros E c' Hm. apply (run_complete _ _ (length s)) in Hm; [|done].
    rewrite E in Hm.
    by apply elem_of_nil in Hm.
  - intros Hno. destruct (run _ _ _ _) as [|c' l] eqn:E; [done|].
    destruct (Hno c'). eapply run_sound. rewrite E. left.
Qed.

Lemma match_at_Some ic r p s c' :
  match_at ic r p s = Some c' → matches ic r (p, s) c'.
Proof.
  unfold match_at. intros Hh. eapply run_sound, head_Some_elem_of, Hh.
Qed.

(** ** Searching *)

Lemma search_from_None ic r p s :
  search_from ic r p s = None ↔
  ∀ pre rest c', s = pre ++ rest → ¬ matches ic r (advance p pre, rest) c'.
Proof.
  revert p. induction s as [|a s IH]; intros p; simpl.
  - destruct (match_at ic r p []) as [c|] eqn:E.
    + split; [done|]. intros Hno. apply match_at_Some in E.
      destruct (Hno [] [] c); [done|by rewrite advance_nil].
    + split; [|done]. intros _ pre rest c' Hs.
      symmetry in Hs. apply app_eq_nil in Hs as [-> ->]. rewrite advance_nil.
      by eapply match_at_None.
  - destruct (match_at ic r p (a :: s)) as [c|] eqn:E.
    + split; [done|]. intros Hno. apply match_at_Some in E.
      destruct (Hno [] (a :: s) c); [done|by rewrite advance_nil].
    + rewrite fmap_None, IH. split.
      * intros Hno [|b pre] rest c' Hs; simpl in Hs.
        -- subst rest. rewrite advance_nil. by eapply match_at_None.
        -- simplify_eq. rewrite advance_cons. by apply Hno.
      * intros Hno pre rest c' ->. specialize (Hno (a :: pre) rest c').
        rewrite advance_cons in Hno. by apply Hno.
Qed.

Lemma search_from_Some ic r p s pre m post :
  search_from ic r p s = Some (pre, m, post) →
  s = pre ++ m ++ post ∧
  match_at ic r (advance p pre) (m ++ post)
    = Some (advance (advance p pre) m, post) ∧
  ∀ pre1 rest1 c', s = pre1 ++ rest1 → length pre1 < length pre →
                   ¬ matches ic r (advance p pre1, rest1) c'.
Proof.
  revert p pre. induction s as [|a s IH]; intros p pre; simpl.
  - destruct (match_at ic r p []) as [c|] eqn:E; [|done].
    intros [= <- <- <-]. apply match_at_Some in E as Hm.
    apply matches_consumes in Hm as (m' & Hs & Hp); simpl in *.
    symmetry in Hs. apply app_eq_nil in Hs as [-> Hc2].
    rewrite Hc2, !advance_nil. rewrite advance_nil in Hp.
    split_and!; [done| |simpl; lia].
    rewrite E. destruct c; simpl in *; by subst.
  - destruct (match_at ic r p (a :: s)) as [c|] eqn:E.
    + intros [= <- <- <-]. apply match_at_Some in E as Hm.
      apply matches_consumes in Hm as (m' & Hs & Hp); simpl in *.
      assert (take (length (a :: s) - length c.2) (a :: s) = m') as Ht.
      { rewrite Hs at 1 2. rewrite length_app.
        replace (length m' + length c.2 - length c.2) with (length m') by lia.
        apply take_app_length. }
      simpl in Ht. rewrite Ht, !advance_nil. simpl.
      split_and!; [done| |simpl; lia].
      rewrite <- Hs, E. destruct c; simpl in *; by subst.
    + destruct (search_from ic r (Some a) s) as [[[pre' m'] post']|] eqn:Es;
        [|done].
      intros [= <- <- <-]. apply IH in Es as (Hs & Hm & Hmin).
      rewrite advance_cons. split_and!; [simpl; congruence | done |].
      intros [|b pre1] rest1 c' Hs1 Hlen; simpl in *.
      * subst rest1. rewrite advance_nil. by eapply match_at_None.
      * simplify_eq. rewrite advance_cons. apply Hmin; [done|lia].
Qed.

Lemma found_search ic r s :
  found (re_search ic r s) = true ↔
  ∃ pre rest c', s = pre ++ rest ∧ matches ic r (last pre, rest) c'.
Proof.
  unfold re_search. split.
  - destruct (search_from ic r None s) as [[[pre m] post]|] eqn:E; [|done].
    intros _. apply search_from_Some in E as (Hs & Hm & _).
    apply match_at_Some in Hm. rewrite advance_None in Hm. eauto.
  - intros (pre & rest & c' & Hs & Hm).
    destruct (search_from ic r None s) eqn:E; [done|].
    pose proof (proj1 (search_from_None _ _ _ _) E pre rest c' Hs) as Hno.
    rewrite advance_None in Hno. done.
Qed.

(** ** Patterns made of whole words *)

Lemma eat_exact w p s c' :
  eat false w (p, s) = Some c' ↔ s = w ++ c'.2 ∧ c'.1 = advance p w.
Proof.
  rewrite eat_spec. split.
  - intros (m & Hs & Hp & Hm).
    assert (w = m) as <-; [|done].
    clear Hs Hp. induction Hm as [|a b u v Hab _ IH]; [done|].
    apply same_char_true in Hab. simpl in Hab. congruence.
  - intros [Hs Hp]. exists w. split_and!; [done..|].
    apply Forall_Forall2_diag, Forall_forall. intros a _.
    by apply same_char_true.
Qed.

Lemma matches_alternation ic w ws c c' :
  matches ic (alternation w ws) c c' ↔
  ∃ w0, w0 ∈ w :: ws ∧ eat ic w0 c = Some c'.
Proof.
  revert w. induction ws as [|w' ws IH]; intros w; simpl.
  - split.
    + inversion 1; subst. exists w. split; [left|done].
    + intros (w0 & ->%list_elem_of_singleton & He). by constructor.
  - split.
    + inversion 1 as [| | |r1 r2 c0 c0' Hl|r1 r2 c0 c0' Hr| | | |]; subst.
      * inversion Hl; subst. exists w. split; [left|done].
      * apply IH in Hr as (w0 & Hin & He). exists w0. split; [by right|done].
    + intros (w0 & Hin & He). apply elem_of_cons in Hin as [->|Hin].
      * apply matches_Alt_l. by constructor.
      * apply matches_Alt_r, IH. eauto.
Qed.

Lemma head_app_word (w rest : text) :
  from_option is_word false (head w) = true → head (w ++ rest) = head w.
Proof. by destruct w. Qed.

Lemma advance_word p (w : text) :
  from_option is_word false (last w) = true →
  from_option is_word false (advance p w) = true.
Proof. unfold advance. by destruct (last w). Qed.

Lemma matches_words w ws p s c' :
  Forall word_form (w :: ws) →
  matches false (words_pattern w ws) (p, s) c' ↔
  ∃ w0, w0 ∈ w :: ws ∧ s = w0 ++ c'.2 ∧ c'.1 = advance p w0 ∧
        from_option is_word false p = false ∧
        from_option is_word false (head c'.2) = false.
Proof.
  intros Hforms. rewrite Forall_forall in Hforms. split.
  - inversion 1 as [| | | | |r1 r2 c0 c1 c2 Hb1 Hrest| | |]; subst.
    inversion Hb1 as [| |c0 Hat1| | | | | |]; subst.
    inversion Hrest as [| | | | |r1 r2 c0 c1 c2 Hg Hb2| | |]; subst.
    inversion Hb2 as [| |c0 Hat2| | | | | |]; subst.
    inversion Hg as [| | | | | |r c0 c0' Halt| |]; subst.
    apply matches_alternation in Halt as (w0 & Hin & He).
    apply eat_exact in He as [Hs Hp]. exists w0. split_and!; [done..| |].
    + destruct (Hforms _ Hin) as [Hh _]. unfold at_boundary in Hat1.
      unfold word_before, word_after in Hat1; simpl in Hat1.
      rewrite Hs, (head_app_word _ _ Hh), Hh in Hat1.
      by destruct (from_option is_word false p).
    + destruct (Hforms _ Hin) as [_ Hl]. unfold at_boundary in Hat2.
      unfold word_before, word_after in Hat2.
      rewrite Hp, (advance_word _ _ Hl) in Hat2.
      by destruct (from_option is_word false (head c'.2)).
  - intros (w0 & Hin & Hs & Hp & Hbefore & Hafter).
    destruct (Hforms _ Hin) as [Hh Hl].
    apply matches_Cat with (p, s).
    { constructor. unfold at_boundary, word_before, word_after; simpl.
      by rewrite Hs, (head_app_word _ _ Hh), Hh, Hbefore. }
    apply matches_Cat with c'.
    { constructor. apply matches_alternation. exists w0. split; [done|].
      by apply eat_exact. }
    constructor. unfold at_boundary, word_before, word_after.
    by rewrite Hp, (advance_word _ _ Hl), Hafter.
Qed.

Section Words.
Variables (w : text) (ws : list text).
Hypothesis forms_words : Forall word_form (w :: ws).
Hypothesis forms_distinct :
    ∀ w1 w2, w1 ∈ w :: ws → w2 ∈ w :: ws → head w1 = head w2 → w1 = w2.

Lemma matches_occurs pre rest c' :
    matches false (words_pattern w ws) (last pre, rest) c' ↔
    ∃ w0, rest = w0 ++ c'.2 ∧ c'.1 = advance (last pre) w0 ∧
          occurs (w :: ws) (pre ++ rest) pre w0 c'.2.
Proof.
    rewrite matches_words by done. unfold occurs, whole_word. split.
    - intros (w0 & Hin & Hs & Hp & Hb & Ha). exists w0.
      split_and!; [done|done|by rewrite Hs|done..].
    - intros (w0 & Hs & Hp & _ & Hin & Hb & Ha). by exists w0.
Qed.

Lemma found_words q :
    found (re_search false (words_pattern w ws) q) = true ↔
    mentions (w :: ws) q.
Proof.
    rewrite found_search. split.
    - intros (pre & rest & c' & -> & Hm).
      apply matches_occurs in Hm as (w0 & ? & ? & ?). by exists pre, w0, c'.2.
    - intros (pre & w0 & post & Hocc). exists pre, (w0 ++ post).
      exists (advance (last pre) w0, post).
      destruct Hocc as (Hq & Hin & Hww). split; [done|].
      apply matches_occurs. exists w0. simpl. by rewrite <- Hq.
Qed.

Lemma occurs_same_start q pre w1 post1 w2 post2 :
    occurs (w :: ws) q pre w1 post1 → occurs (w :: ws) q pre w2 post2 →
    w1 = w2 ∧ post1 = post2.
Proof.
    intros (Hq1 & Hin1 & _) (Hq2 & Hin2 & _).
    rewrite Hq1 in Hq2. apply app_inv_head in Hq2.
    rewrite Forall_forall in forms_words.
    destruct (forms_words _ Hin1) as [Hh1 _], (forms_words _ Hin2) as [Hh2 _].
    assert (w1 = w2) as <-.
    { apply forms_distinct; [done..|].
      by rewrite <- (head_app_word w1 post1), <- (head_app_word w2 post2), Hq2. }
    split; [done|]. by apply app_inv_head in Hq2.
Qed.

  (** The search stops at the first occurrence and returns it. *)
Lemma search_words q pre w0 post :
    first_occurrence (w :: ws) q pre w0 post →
    re_search false (words_pattern w ws) q = Some (pre, w0, post).
Proof.
    intros [Hocc Hfirst]. unfold re_search.
    destruct (search_from false (words_pattern w ws) None q)
      as [[[pre' m'] post']|] eqn:E.
    - apply search_from_Some in E as (Hq & Hm & Hmin).
      apply match_at_Some in Hm. rewrite advance_None in Hm.
      apply matches_occurs in Hm as (w' & Hs & _ & Hocc'); simpl in *.
      apply app_inv_tail in Hs as ->. rewrite <- Hq in Hocc'.
      assert (length pre = length pre') as Hlen.
      { apply Nat.le_antisymm; [by eapply Hfirst|].
        apply Nat.nlt_ge. intros Hlt. destruct Hocc as (Hq0 & Hin0 & Hww0).
        eapply (Hmin pre (w0 ++ post)); [done|done|].
        rewrite advance_None. apply matches_occurs.
        exists w0. instantiate (1 := (advance (last pre) w0, post)).
        simpl. split_and!; [done..|]. by rewrite <- Hq0. }
      assert (pre' = pre) as ->.
      { destruct Hocc as (Hq0 & _). rewrite Hq0 in Hq.
        apply app_inj_1 in Hq as [? _]; done. }
      destruct (occurs_same_start _ _ _ _ _ _ Hocc Hocc') as [-> ->]. done.
    - destruct Hocc as (Hq0 & Hin0 & Hww0).
      pose proof (proj1 (search_from_None _ _ _ _) E pre (w0 ++ post)
                    (advance (last pre) w0, post) Hq0) as Hno.
      destruct Hno. rewrite advance_None. apply matches_occurs.
      exists w0. simpl. split_and!; [done..|]. by rewrite <- Hq0.
Qed.
End Words.

(** ** The already-qualified check *)

Lemma eat_ci w p s c' :
  eat true w (p, s) = Some c' ↔
  ∃ m, s = m ++ c'.2 ∧ c'.1 = advance p m ∧ ci_equal w m.
Proof.
  rewrite eat_spec. unfold ci_equal.
  assert (∀ m, Forall2 (fun a b => same_char true a b = true) w m ↔
               Forall2 (fun a b => lower a = lower b) w m) as Hiff.
  { intros m. split; intros H; (eapply Forall2_impl; [exact H|]);
      intros a b; by rewrite same_char_true. }
  split; intros (m & ? & ? & ?); exists m; by rewrite ?Hiff in *.
Qed.

Lemma matches_star_any ic c c' :
  matches ic (Star AnyChar) c c' ↔
  ∃ gap, c.2 = gap ++ c'.2 ∧ c'.1 = advance c.1 gap ∧ newline ∉ gap.
Proof.
  split.
  - remember (Star AnyChar) as r eqn:Hr.
    induction 1 as [| | | | | | | r c | r c c1 c2 H1 _ _ _ IH]; try done.
    + exists []. rewrite advance_nil. split_and!; [done..|]. apply not_elem_of_nil.
    + injection Hr as ->. destruct (IH eq_refl) as (gap & E & A & Hn).
      inversion H1 as [|p b s Hb| | | | | | |]; subst; simpl in *.
      exists (b :: gap). rewrite advance_cons.
      split_and!; [simpl; congruence | done |].
      apply not_elem_of_cons. split; [congruence|done].
  - intros (gap & E & A & Hn). destruct c as [p s], c' as [p' s']; simpl in *.
    subst s p'. revert p Hn. induction gap as [|b gap IH]; intros p Hn.
    + rewrite advance_nil. constructor.
    + apply not_elem_of_cons in Hn as [Hb Hn]. rewrite advance_cons.
      apply matches_Star_round with (Some b, gap ++ s'); simpl.
      * constructor. congruence.
      * lia.
      * by apply IH.
Qed.

Lemma matches_qualified p s c' :
  matches true pattern_qualified (p, s) c' ↔
  ∃ mid, s = mid ++ c'.2 ∧ c'.1 = advance p mid ∧ qualifier_on_a_line mid.
Proof.
  unfold pattern_qualified, qualifier_on_a_line. split.
  - inversion 1 as [| | | | | |r c0 c0' Halt| |]; subst.
    inversion Halt as [| | |r1 r2 c0 c0' H1|r1 r2 c0 c0' H2| | | |]; subst.
    { inversion H1 as [w c0 c0' He| | | | | | | |]; subst.
      apply eat_ci in He as (m & ? & ? & ?). exists m. eauto. }
    inversion H2 as [| | |r1 r2 c0 c0' H3|r1 r2 c0 c0' H4| | | |]; subst.
    { inversion H3 as [w c0 c0' He| | | | | | | |]; subst.
      apply eat_ci in He as (m & ? & ? & ?). exists m. eauto. }
    inversion H4 as [| | | | |r1 r2 c0 c1 c2 Hof Hrest| | |]; subst.
    inversion Hrest as [| | | | |r1 r2 c0 c3 c4 Hgap Hdescent| | |]; subst.
    inversion Hof as [w c0 c0' He1| | | | | | | |]; subst.
    inversion Hdescent as [w c0 c0' He2| | | | | | | |]; subst.
    apply eat_ci in He1 as (x & Hs & Hp1 & Hx).
    apply matches_star_any in Hgap as (gap & Hs1 & Hp3 & Hn).
    destruct c3 as [p3 s3]; simpl in Hs1, Hp3.
    apply eat_ci in He2 as (y & Hs3 & Hp' & Hy).
    exists (x ++ gap ++ y). split_and!.
    + by rewrite Hs, Hs1, Hs3, <- !(assoc_L (++)).
    + by rewrite Hp', Hp3, Hp1, !advance_app.
    + right. right. by exists x, gap, y.
  - intros (mid & Hs & Hp & [Hq | [Hq | (x & gap & y & -> & Hx & Hy & Hn)]]);
      constructor.
    + apply matches_Alt_l. constructor. apply eat_ci. eauto.
    + apply matches_Alt_r, matches_Alt_l. constructor. apply eat_ci. eauto.
    + apply matches_Alt_r, matches_Alt_r.
      apply matches_Cat with (advance p x, gap ++ y ++ c'.2).
      { constructor. apply eat_ci. exists x. simpl.
        by rewrite Hs, <- !(assoc_L (++)). }
      apply matches_Cat with (advance (advance p x) gap, y ++ c'.2).
      { apply matches_star_any. by exists gap. }
      constructor. apply eat_ci. exists y. simpl.
      by rewrite Hp, !advance_app.
Qed.

(** The check of the source finds exactly the questions that contain a
    qualifying phrase. *)
Lemma found_qualified q :
  found (re_search true pattern_qualified q) = true ↔ qualified_on_a_line q.
Proof.
  rewrite found_search. unfold qualified_on_a_line. split.
  - intros (pre & rest & c' & -> & Hm).
    apply matches_qualified in Hm as (mid & -> & _ & Hq). eauto.
  - intros (pre & mid & post & -> & Hq).
    exists pre, (mid ++ post), (advance (last pre) mid, post). split; [done|].
    apply matches_qualified. eauto.
Qed.

Lemma ci_head_nonspace (w mid : text) a :
  ci_equal w mid → head w = Some a → isspace a = false →
  ∃ a', head mid = Some a' ∧ isspace a' = false.
Proof.
  intros Hci Hh Ha.
  destruct (ci_equal_head _ _ _ Hci Hh) as (a' & Ha' & Ea).
  exists a'. by rewrite <- (ci_space _ _ Ea).
Qed.

Lemma ci_last_nonspace (w mid : text) b :
  ci_equal w mid → last w = Some b → isspace b = false →
  ∃ b', last mid = Some b' ∧ isspace b' = false.
Proof.
  intros Hci Hl Hb.
  destruct (ci_equal_last _ _ _ Hci Hl) as (b' & Hb' & Eb).
  exists b'. by rewrite <- (ci_space _ _ Eb).
Qed.

(** A qualifying phrase begins and ends with a character that is not
    white space. *)
Lemma qualifier_ends mid :
  qualifier_on_a_line mid →
  (∃ a, head mid = Some a ∧ isspace a = false) ∧
  (∃ b, last mid = Some b ∧ isspace b = false).
Proof.
  intros [Hq | [Hq | (x & gap & y & -> & Hx & Hy & _)]].
  - split; [by eapply ci_head_nonspace | by eapply ci_last_nonspace].
  - split; [by eapply ci_head_nonspace | by eapply ci_last_nonspace].
  - eapply ci_head_nonspace in Hx as (a & Hha & Ha); [|done..].
    eapply ci_last_nonspace in Hy as (b & Hlb & Hb); [|done..].
    split; [exists a | exists b]; split; try done.
    + apply head_Some in Hha as [x' ->]. done.
    + apply last_Some in Hlb as [y' ->].
      by rewrite !(assoc_L (++)), last_snoc.
Qed.

Lemma strip_keeps (mid q pre post : text) a b :
  q = pre ++ mid ++ post →
  head mid = Some a → isspace a = false →
  last mid = Some b → isspace b = false →
  ∃ pre' post', strip q = pre' ++ mid ++ post'.
Proof.
  intros Hq [m' ->]%head_Some Ha Hl Hb.
  apply last_Some in Hl as [init Hinit].
  destruct (lstrip_spec q) as (ws1 & E1 & Hws1 & _).
  assert (∃ k, lstrip q = k ++ (a :: m') ++ post) as [k Hk].
  { remember (lstrip q) as L eqn:HL. clear HL. subst q. symmetry in E1.
    apply app_eq_inv in E1 as [(k & -> & E) | (k & -> & E)]; [|by exists k].
    destruct k as [|a' k]; simpl in E; [exists []; done|].
    simplify_eq. rewrite Forall_app, Forall_cons in Hws1.
    destruct Hws1 as (_ & ? & _). congruence. }
  unfold strip. destruct (rstrip_spec (lstrip q)) as (ws2 & E2 & Hws2 & _).
  remember (rstrip (lstrip q)) as R eqn:HR. clear HR.
  rewrite Hk, Hinit in E2.
  replace (k ++ (init ++ [b]) ++ post) with ((k ++ init) ++ b :: post) in E2
    by (by rewrite <- !(assoc_L (++))).
  symmetry in E2.
  apply app_eq_inv in E2 as [(j & E & E') | (j & E & E')].
  - destruct j as [|b' j]; simpl in E'.
    + subst ws2. apply Forall_cons in Hws2 as [? _]. congruence.
    + simplify_eq. exists k, j. rewrite Hinit.
      by rewrite <- !(assoc_L (++)).
  - subst ws2. rewrite Forall_app, Forall_cons in Hws2.
    destruct Hws2 as (_ & ? & _). congruence.
Qed.

(** Stripping the question does not change whether it is qualified. *)
Lemma qualified_on_a_line_strip q :
  qualified_on_a_line (strip q) ↔ qualified_on_a_line q.
Proof.
  split.
  - intros (pre & mid & post & E & Hq).
    destruct (lstrip_spec q) as (ws1 & E1 & _).
    destruct (rstrip_spec (lstrip q)) as (ws2 & E2 & _).
    exists (ws1 ++ pre), mid, (post ++ ws2). split; [|done].
    rewrite E1 at 1. rewrite E2 at 1. fold (strip q). rewrite E.
    by rewrite <- !(assoc_L (++)).
  - intros (pre & mid & post & E & Hq).
    destruct (qualifier_ends _ Hq) as [(a & Hh & Ha) (b & Hl & Hb)].
    destruct (strip_keeps _ _ _ _ _ _ E Hh Ha Hl Hb) as (pre' & post' & E').
    by exists pre', mid, post'.
Qed.

Lemma qualified_check q :
  found (re_search true pattern_qualified (strip q)) = true ↔ qualified_on_a_line q.
Proof. by rewrite found_qualified, qualified_on_a_line_strip. Qed.

(** What the search returns is the first occurrence. *)
Lemma search_words_first w ws q pre m post :
  Forall word_form (w :: ws) →
  re_search false (words_pattern w ws) q = Some (pre, m, post) →
  first_occurrence (w :: ws) q pre m post.
Proof.
  intros Hforms E. apply search_from_Some in E as (Hq & Hm & Hmin).
  apply match_at_Some in Hm. rewrite advance_None in Hm.
  apply (matches_occurs _ _ Hforms) in Hm as (w' & Hs & _ & Hocc).
  simpl in *. apply app_inv_tail in Hs as ->. rewrite <- Hq in Hocc.
  split; [done|]. intros pre1 w1 post1 (Hq1 & Hin1 & Hww1).
  apply Nat.nlt_ge. intros Hlt.
  eapply (Hmin pre1 (w1 ++ post1)); [done|done|].
  rewrite advance_None. apply (matches_occurs _ _ Hforms).
  exists w1. instantiate (1 := (advance (last pre1) w1, post1)).
  simpl. split_and!; [done..|]. by rewrite <- Hq1.
Qed.

(** A question that mentions a form has a first occurrence of one. *)
Lemma mentions_first_occurrence w ws q :
  Forall word_form (w :: ws) → mentions (w :: ws) q →
  ∃ pre m post, first_occurrence (w :: ws) q pre m post.
Proof.
  intros Hforms Hm%(found_words _ _ Hforms).
  destruct (re_search false (words_pattern w ws) q) as [[[pre m] post]|] eqn:E;
    [|done].
  exists pre, m, post. by apply search_words_first.
Qed.

(** ** Qualifying phrases in the words of the specification *)

Lemma qualified_on_a_line_qualified q :
  qualified_on_a_line q → already_qualified q.
Proof.
  intros (pre & mid & post & E & Hq). exists pre, mid, post. split; [done|].
  destruct Hq as [H | [H | (x & gap & y & ? & ? & ? & _)]];
    [by left | by right; left | right; right; by exists x, gap, y].
Qed.

Lemma starts_ci w s :
  found (eat true w (None, s)) = true ↔ ∃ m post, s = m ++ post ∧ ci_equal w m.
Proof.
  split.
  - destruct (eat true w (None, s)) as [c'|] eqn:E; [|done]. intros _.
    apply eat_ci in E as (m & ? & _ & ?). by exists m, c'.2.
  - intros (m & post & -> & Hm).
    assert (eat true w (None, m ++ post) = Some (advance None m, post)) as ->;
      [|done].
    apply eat_ci. by exists m.
Qed.

Lemma contains_ci_spec w s :
  contains_ci w s = true ↔ ∃ pre m post, s = pre ++ m ++ post ∧ ci_equal w m.
Proof.
  induction s as [|a s IH]; cbn [contains_ci]; rewrite orb_true_iff, starts_ci.
  - split.
    + intros [(m & post & E & Hm) | ?]; [|done]. by exists [], m, post.
    + intros (pre & m & post & E & Hm). left. symmetry in E.
      apply app_eq_nil in E as [-> [-> ->]%app_eq_nil]. by exists [], [].
  - rewrite IH. split.
    + intros [(m & post & E & Hm) | (pre & m & post & -> & Hm)].
      * by exists [], m, post.
      * by exists (a :: pre), m, post.
    + intros ([|b pre] & m & post & E & Hm).
      * left. by exists m, post.
      * right. injection E as -> ->. by exists pre, m, post.
Qed.

Lemma contains_ci_then_spec w1 w2 s :
  contains_ci_then w1 w2 s = true ↔
  ∃ pre x gap y post, s = pre ++ x ++ gap ++ y ++ post ∧
                      ci_equal w1 x ∧ ci_equal w2 y.
Proof.
  assert (∀ s, match eat true w1 (None, s) with
               | Some c => contains_ci w2 c.2
               | None => false
               end = true ↔
               ∃ x gap y post, s = x ++ gap ++ y ++ post ∧
                               ci_equal w1 x ∧ ci_equal w2 y) as Hhere.
  { intros s'. split.
    - destruct (eat true w1 (None, s')) as [c|] eqn:E; [|done].
      apply eat_ci in E as (x & -> & _ & Hx).
      intros (gap & y & post & -> & Hy)%contains_ci_spec.
      by exists x, gap, y, post.
    - intros (x & gap & y & post & -> & Hx & Hy).
      assert (eat true w1 (None, x ++ gap ++ y ++ post)
              = Some (advance None x, gap ++ y ++ post)) as ->
        by (apply eat_ci; by exists x).
      apply contains_ci_spec. by exists gap, y, post. }
  induction s as [|a s IH]; cbn [contains_ci_then];
    rewrite orb_true_iff, Hhere.
  - split.
    + intros [(x & gap & y & post & E & ?) | ?]; [|done].
      by exists [], x, gap, y, post.
    + intros (pre & x & gap & y & post & E & ? & ?). left. symmetry in E.
      apply app_eq_nil in E as [-> E]. by exists x, gap, y, post.
  - rewrite IH. split.
    + intros [(x & gap & y & post & E & ?)
             | (pre & x & gap & y & post & -> & ?)].
      * by exists [], x, gap, y, post.
      * by exists (a :: pre), x, gap, y, post.
    + intros ([|b pre] & x & gap & y & post & E & ?).
      * left. by exists x, gap, y, post.
      * right. injection E as -> ->. by exists pre, x, gap, y, post.
Qed.

(** [says_qualified] decides whether a question contains a qualifying
    phrase in the words of the specification. *)
Lemma says_qualified_spec q : says_qualified q = true ↔ already_qualified q.
Proof.
  unfold says_qualified, already_qualified, qualifier.
  rewrite !orb_true_iff, !contains_ci_spec, contains_ci_then_spec. split.
  - intros [[(pre & m & post & -> & H) | (pre & m & post & -> & H)]
           | (pre & x & gap & y & post & -> & Hx & Hy)].
    + exists pre, m, post. auto.
    + exists pre, m, post. auto.
    + exists pre, (x ++ gap ++ y), post. split.
      * by rewrite <- !(assoc_L (++)).
      * right. right. by exists x, gap, y.
  - intros (pre & mid & post & -> & [H | [H | (x & gap & y & -> & Hx & Hy)]]).
    + left. left. by exists pre, mid, post.
    + left. right. by exists pre, mid, post.
    + right. exists pre, x, gap, y, post. by rewrite <- !(assoc_L (++)).
Qed.

(** ** The two substituted patterns *)

Lemma singular_forms_words : Forall word_form singular_forms.
Proof. repeat constructor. Qed.

Lemma plural_forms_words : Forall word_form plural_forms.
Proof. repeat constructor. Qed.

Lemma singular_forms_distinct w1 w2 :
  w1 ∈ singular_forms → w2 ∈ singular_forms → head w1 = head w2 → w1 = w2.
Proof.
  unfold singular_forms; simpl. rewrite !elem_of_cons, !elem_of_nil.
  intros [->|[->|[->|[->|[]]]]] [->|[->|[->|[->|[]]]]]; by vm_compute.
Qed.

Lemma plural_forms_distinct w1 w2 :
  w1 ∈ plural_forms → w2 ∈ plural_forms → head w1 = head w2 → w1 = w2.
Proof.
  unfold plural_forms; simpl. rewrite !elem_of_cons, !elem_of_nil.
  intros [->|[->|[]]] [->|[->|[]]]; by vm_compute.
Qed.

Lemma found_singular q :
  found (re_search false pattern_s q) = true ↔ mentions singular_forms q.
Proof. apply (found_words _ _ singular_forms_words). Qed.

Lemma found_plural q :
  found (re_search false pattern_p q) = true ↔ mentions plural_forms q.
Proof. apply (found_words _ _ plural_forms_words). Qed.

Lemma search_singular q pre w post :
  first_occurrence singular_forms q pre w post →
  re_search false pattern_s q = Some (pre, w, post).
Proof.
  apply (search_words _ _ singular_forms_words singular_forms_distinct).
Qed.

Lemma search_plural q pre w post :
  first_occurrence plural_forms q pre w post →
  re_search false pattern_p q = Some (pre, w, post).
Proof.
  apply (search_words _ _ plural_forms_words plural_forms_distinct).
Qed.

(** ** Replacements without a backslash *)

Lemma has_backslash_false s : has_backslash s = false ↔ no_backslash s.
Proof.
  unfold has_backslash, no_backslash. induction s as [|a s IH]; cbn [existsb].
  - split; [intros _; apply not_elem_of_nil | done].
  - rewrite orb_false_iff, IH, not_elem_of_cons, <- Ascii.eqb_neq. done.
Qed.

Lemma compile_repl_plain n repl :
  no_backslash repl → compile_repl n repl = Some [Chars repl].
Proof. intros H%has_backslash_false. unfold compile_repl. by rewrite H. Qed.

(** A replacement without a backslash is put in as it is. *)
Lemma re_sub_first_plain r repl s pre m post :
  no_backslash repl → re_search false r s = Some (pre, m, post) →
  re_sub_first r repl s = Done (pre ++ repl ++ post).
Proof.
  intros Hrepl Hs. unfold re_sub_first.
  rewrite (compile_repl_plain _ _ Hrepl), Hs. simpl. by rewrite app_nil_r.
Qed.

Lemma singular_template_plain attr :
  no_backslash attr → no_backslash (txt "A " ++ attr ++ txt " patient").
Proof.
  unfold no_backslash. rewrite !not_elem_of_app. intros H.
  split_and!; [|done|]; compute_done.
Qed.

Lemma plural_template_plain attr :
  no_backslash attr → no_backslash (attr ++ txt " patients").
Proof.
  unfold no_backslash. rewrite !not_elem_of_app. intros H.
  split; [done|]. compute_done.
Qed.

Lemma found_false {A : Type} (o : option A) : found o = false ↔ o = None.
Proof. destruct o; naive_solver. Qed.

Lemma not_found_qualified q :
  ¬ qualified_on_a_line q →
  found (re_search true pattern_qualified (strip q)) = false.
Proof.
  intros Hq. apply not_true_is_false. by rewrite qualified_check.
Qed.

(** ** Questions that open with the generic patient phrase *)

Lemma lstrip_nonspace a s : isspace a = false → lstrip (a :: s) = a :: s.
Proof. intros H. simpl. by rewrite H. Qed.

Lemma short_prefix_unqualified (lead r k : text) :
  lead = txt "A patient " ∨ lead = txt "a patient " →
  lead = r ++ k → k ≠ [] → ¬ qualified_on_a_line r.
Proof.
  intros Hlead E Hk Hq. apply found_qualified in Hq.
  assert (r = take (length r) lead) as Hr by (by rewrite E, take_app_length).
  assert (length r < 10) as Hlen.
  { assert (length lead = 10) as Hl by (by destruct Hlead as [-> | ->]).
    rewrite E, length_app in Hl. destruct k; [done|]. simpl in Hl. lia. }
  rewrite Hr in Hq. clear Hr E. remember (length r) as n eqn:Hn. clear Hn.
  destruct Hlead as [-> | ->];
    do 10 (destruct n as [|n]; [by vm_compute in Hq|]); lia.
Qed.

(** A qualified question that opens with the phrase still opens with it
    once stripped. *)
Lemma qualified_lead_strip (lead q : text) :
  lead = txt "A patient " ∨ lead = txt "a patient " →
  qualified_on_a_line q → startswith lead q = true →
  startswith lead (strip q) = true.
Proof.
  intros Hlead Hq [rest E]%startswith_spec. apply startswith_spec.
  apply qualified_on_a_line_strip in Hq. unfold strip in *.
  assert (lstrip q = q) as Hl.
  { subst q. destruct Hlead; subst lead; reflexivity. }
  rewrite Hl in *.
  destruct (rstrip_spec q) as (ws & E2 & _).
  remember (rstrip q) as r eqn:Hr. clear Hr.
  rewrite E in E2. symmetry in E2.
  apply app_eq_inv in E2 as [(k & E3 & _) | (k & E3 & _)]; [by exists k|].
  destruct k as [|a k]; [exists []; by rewrite E3, !app_nil_r|].
  destruct (short_prefix_unqualified lead r (a :: k)); done.
Qed.

(** ** The attribute injector *)

(** What the injector computes when the attribute has no backslash. *)
Lemma inject_plain q attr :
  no_backslash attr →
  add_sensitive_to_question q attr =
    if found (re_search true pattern_qualified (strip q)) then
      if startswith (txt "A patient ") (strip q)
         || startswith (txt "a patient ") (strip q)
      then Done (Some (txt "A " ++ attr ++ txt " patient " ++ drop 10 q))
      else Done None
    else
      match re_search false pattern_s q with
      | Some (pre, _, post) =>
          Done (Some (pre ++ (txt "A " ++ attr ++ txt " patient") ++ post))
      | None =>
          match re_search false pattern_p q with
          | Some (pre, _, post) =>
              Done (Some (pre ++ (attr ++ txt " patients") ++ post))
          | None => Done None
          end
      end.
Proof.
  intros Hattr. unfold add_sensitive_to_question.
  destruct (found (re_search true pattern_qualified (strip q))).
  { by destruct (startswith (txt "A patient ") (strip q)),
               (startswith (txt "a patient ") (strip q)). }
  destruct (re_search false pattern_s q) as [[[pre m] post]|] eqn:Es;
    cbn [found].
  { by rewrite (re_sub_first_plain _ _ _ _ _ _
                  (singular_template_plain _ Hattr) Es). }
  destruct (re_search false pattern_p q) as [[[pre m] post]|] eqn:Ep;
    cbn [found].
  { by rewrite (re_sub_first_plain _ _ _ _ _ _
                  (plural_template_plain _ Hattr) Ep). }
  done.
Qed.

Lemma inject_plain_outcome q attr :
  no_backslash attr →
  if gives_up q then add_sensitive_to_question q attr = Done None
  else ∃ a s, add_sensitive_to_question q attr = Done (Some (a :: s)).
Proof.
  intros Hattr. rewrite (inject_plain _ _ Hattr). unfold gives_up.
  destruct (found (re_search true pattern_qualified (strip q))).
  { destruct (startswith (txt "A patient ") (strip q)
              || startswith (txt "a patient ") (strip q)); simpl; [|done].
    by eexists _, _. }
  destruct (re_search false pattern_s q) as [[[pre m] post]|];
    cbn [found negb andb].
  { destruct pre; by eexists _, _. }
  destruct (re_search false pattern_p q) as [[[pre m] post]|];
    cbn [found negb andb]; [|done].
  destruct pre as [|b pre]; [|by eexists _, _].
  destruct attr; by eexists _, _.
Qed.

Local Ltac not_qualified :=
  let H := fresh in intros H%found_qualified; vm_compute in H; discriminate H.
Local Ltac not_mentioned lem :=
  let H := fresh in intros H%lem; vm_compute in H; discriminate H.
Local Ltac is_qualified := apply found_qualified; vm_compute; reflexivity.
Local Ltac not_in_words :=
  let H := fresh in
  intros H%says_qualified_spec; vm_compute in H; discriminate H.
Local Ltac in_words := apply says_qualified_spec; vm_compute; reflexivity.
Local Ltac starts_first :=
  split; [split_and!; [reflexivity | compute_done | split; reflexivity]
         | intros; simpl; lia].

(** X16: for every attribute without a backslash and every question that
    contains no qualifying phrase on a line ("who is", "who are",
    "of ... descent", in any case) and that contains a whole-word occurrence
    of one of "A patient", "a patient", "The patient", "the patient", the
    question reads [pre ++ w ++ post] with [w] the first such occurrence,
    and the injector returns [pre], then "A {attribute} patient", then
    [post]: the first occurrence is replaced and every other character,
    later singular or plural references included, is kept; a plural
    reference elsewhere changes nothing. *)
Theorem singular_reference_rewritten q attr :
  no_backslash attr →
  ¬ qualified_on_a_line q →
  mentions singular_forms q →
  ∃ pre w post,
    first_occurrence singular_forms q pre w post ∧
    add_sensitive_to_question q attr
    = Done (Some (pre ++ (txt "A " ++ attr ++ txt " patient") ++ post)).
Proof.
  intros Hattr Hq Hm.
  destruct (mentions_first_occurrence _ _ _ singular_forms_words Hm)
    as (pre & w & post & Hfirst).
  exists pre, w, post. split; [done|]. rewrite (inject_plain _ _ Hattr).
  by rewrite (not_found_qualified _ Hq), (search_singular _ _ _ _ Hfirst).
Qed.

Lemma singular_reference_rewritten_witness :
  ∃ pre w post,
    first_occurrence singular_forms
      (txt "Two patients and the patient wait; the patient first") pre w post ∧
    add_sensitive_to_question
      (txt "Two patients and the patient wait; the patient first") (txt "Black")
    = Done (Some (pre ++ (txt "A " ++ txt "Black" ++ txt " patient") ++ post)).
Proof.
  apply singular_reference_rewritten.
  - compute_done.
  - not_qualified.
  - apply found_singular. vm_compute. reflexivity.
Defined.

(** C1, at a failing input: the question "a patient has a cough" contains
    no qualifying phrase and its first whole-word singular reference is
    "a patient", at the start.  For the attribute White\non-Hispanic the
    injector does not return "A White\non-Hispanic patient has a cough":
    [re.sub] reads the replacement as a template, and the backslash-n of the
    attribute comes out as a line break.  For the attribute Black\Hispanic
    the same call raises. *)
Lemma singular_reference_backslash_attribute :
  let q := txt "a patient has a cough" in
  let attr := txt "White\non-Hispanic" in
  ¬ already_qualified q ∧
  first_occurrence singular_forms q [] (txt "a patient") (txt " has a cough") ∧
  add_sensitive_to_question q attr
  = Done (Some (txt "A White" ++ [newline]
                ++ txt "on-Hispanic patient has a cough")) ∧
  add_sensitive_to_question q attr
  ≠ Done (Some ([] ++ (txt "A " ++ attr ++ txt " patient") ++ txt " has a cough")) ∧
  add_sensitive_to_question q (txt "Black\Hispanic") = Raised.
Proof.
  split_and!; [not_in_words | starts_first | by vm_compute | by vm_compute
              | by vm_compute].
Qed.

(** X17: for every attribute without a backslash and every question that
    contains no qualifying phrase on a line and no whole-word singular
    reference and that contains a whole-word occurrence of "Patients" or
    "patients", the question reads [pre ++ w ++ post] with [w] the first
    such occurrence, and the injector returns [pre], then
    "{attribute} patients", then [post]. *)
Theorem plural_reference_rewritten q attr :
  no_backslash attr →
  ¬ qualified_on_a_line q →
  ¬ mentions singular_forms q →
  mentions plural_forms q →
  ∃ pre w post,
    first_occurrence plural_forms q pre w post ∧
    add_sensitive_to_question q attr
    = Done (Some (pre ++ (attr ++ txt " patients") ++ post)).
Proof.
  intros Hattr Hq Hs Hm.
  destruct (mentions_first_occurrence _ _ _ plural_forms_words Hm)
    as (pre & w & post & Hfirst).
  exists pre, w, post. split; [done|]. rewrite (inject_plain _ _ Hattr).
  rewrite (not_found_qualified _ Hq), (search_plural _ _ _ _ Hfirst).
  destruct (re_search false pattern_s q) eqn:Es; [|done].
  destruct Hs. apply found_singular. by rewrite Es.
Qed.

Lemma plural_reference_rewritten_witness :
  ∃ pre w post,
    first_occurrence plural_forms
      (txt "Do outpatients and patients differ, as patients say?") pre w post ∧
    add_sensitive_to_question
      (txt "Do outpatients and patients differ, as patients say?") (txt "female")
    = Done (Some (pre ++ (txt "female" ++ txt " patients") ++ post)).
Proof.
  apply plural_reference_rewritten.
  - compute_done.
  - not_qualified.
  - not_mentioned found_singular.
  - apply found_plural. vm_compute. reflexivity.
Defined.

(** C4, at a failing input: the question "patients wait" contains no
    qualifying phrase and no whole-word singular reference, and its first
    whole-word plural reference is "patients", at the start.  For the
    attribute Black\Hispanic the injector does not return
    "Black\Hispanic patients wait": it raises, since [re.sub] reads the
    replacement as a template and backslash-H is no escape. *)
Lemma plural_reference_backslash_attribute :
  let q := txt "patients wait" in
  let attr := txt "Black\Hispanic" in
  ¬ already_qualified q ∧ ¬ mentions singular_forms q ∧
  first_occurrence plural_forms q [] (txt "patients") (txt " wait") ∧
  add_sensitive_to_question q attr = Raised.
Proof.
  split_and!; [not_in_words | not_mentioned found_singular | starts_first
              | by vm_compute].
Qed.

(** C5: a question with no qualifying phrase and no whole-word occurrence
    of any of the four singular or two plural forms gets [None], whatever
    the attribute; no patient reference is made up.  A question whose only
    patient-like text sits inside "inpatient" is such a question (see the
    witness).  The hypothesis asks for no qualifying phrase on a line; a
    question with no qualifying phrase at all is one of these
    ([qualified_on_a_line_qualified]). *)
Theorem unrecognised_question_no_match q attr :
  ¬ qualified_on_a_line q →
  ¬ mentions singular_forms q →
  ¬ mentions plural_forms q →
  add_sensitive_to_question q attr = Done None.
Proof.
  intros Hq Hs Hp. unfold add_sensitive_to_question.
  rewrite (not_found_qualified _ Hq).
  destruct (found (re_search false pattern_s q)) eqn:Es;
    [by apply found_singular in Es|].
  destruct (found (re_search false pattern_p q)) eqn:Ep;
    [by apply found_plural in Ep|].
  done.
Qed.

Lemma unrecognised_question_no_match_witness :
  add_sensitive_to_question (txt "The inpatient ward admits inpatients daily")
    (txt "Asian")
  = Done None.
Proof.
  apply unrecognised_question_no_match.
  - not_qualified.
  - not_mentioned found_singular.
  - not_mentioned found_plural.
Defined.

(** X18: a question that contains a qualifying phrase on a line and whose
    text begins with exactly "A patient " or exactly "a patient " gets
    "A {attribute} patient " followed by its own text from index 10 on,
    whatever the attribute, backslashes included. *)
Theorem qualified_lead_rewritten q attr :
  qualified_on_a_line q →
  startswith (txt "A patient ") q = true ∨ startswith (txt "a patient ") q = true →
  add_sensitive_to_question q attr
  = Done (Some (txt "A " ++ attr ++ txt " patient " ++ drop 10 q)).
Proof.
  intros Hq Hlead. unfold add_sensitive_to_question.
  rewrite (proj2 (qualified_check q) Hq).
  destruct Hlead as [Hl | Hl].
  - by rewrite (qualified_lead_strip _ _ (or_introl eq_refl) Hq Hl).
  - rewrite (qualified_lead_strip _ _ (or_intror eq_refl) Hq Hl).
    by destruct (startswith (txt "A patient ") (strip q)).
Qed.

Lemma qualified_lead_rewritten_witness :
  add_sensitive_to_question
    (txt "A patient presents with thirst who is diabetic") (txt "Hispanic")
  = Done (Some (txt "A " ++ txt "Hispanic" ++ txt " patient "
                ++ drop 10 (txt "A patient presents with thirst who is diabetic"))).
Proof.
  apply qualified_lead_rewritten.
  - is_qualified.
  - left. reflexivity.
Defined.

(** C2, at a failing input: the question reads "A patient of Irish", a
    line break, "or Scottish descent".  It contains "of <anything> descent"
    and begins with "A patient ", yet for the attribute Black\Hispanic the
    injector does not return "A Black\Hispanic patient " followed by the
    text from index 10 on: it raises.  The check of the source does not
    look across the line break, so the question goes to [re.sub], which
    reads the replacement as a template.  For the attribute Black the same
    question gets what the claim says. *)
Lemma qualified_lead_backslash_attribute :
  let q := txt "A patient of Irish" ++ newline :: txt "or Scottish descent" in
  already_qualified q ∧
  ¬ qualified_on_a_line q ∧
  startswith (txt "A patient ") q = true ∧
  add_sensitive_to_question q (txt "Black\Hispanic") = Raised ∧
  add_sensitive_to_question q (txt "Black")
  = Done (Some (txt "A Black patient " ++ drop 10 q)).
Proof.
  split_and!; [in_words | not_qualified | reflexivity | by vm_compute
              | by vm_compute].
Qed.

(** C3 (as amended): a question that contains a qualifying phrase on a
    line ("who is", "who are", or "of ... descent" with no line break
    between "of " and " descent", in any case) and whose text, once stripped
    of surrounding white space, begins with neither "A patient " nor
    "a patient " gets [None], whatever the attribute and whatever generic
    patient references it contains elsewhere. *)
Theorem qualified_without_lead_no_match q attr :
  qualified_on_a_line q →
  startswith (txt "A patient ") (strip q) = false →
  startswith (txt "a patient ") (strip q) = false →
  add_sensitive_to_question q attr = Done None.
Proof.
  intros Hq HA Ha. unfold add_sensitive_to_question.
  by rewrite (proj2 (qualified_check q) Hq), HA, Ha.
Qed.

Lemma qualified_without_lead_no_match_witness :
  add_sensitive_to_question
    (txt "The patient is of Irish descent, like many patients") (txt "White")
  = Done None.
Proof.
  apply qualified_without_lead_no_match.
  - is_qualified.
  - reflexivity.
  - reflexivity.
Defined.

(** C3 as stated fails in two ways.  When white space comes first, the
    text does not begin with "A patient " or "a patient ", yet the injector
    rewrites it: the source looks at the stripped text.  When a line break
    stands between "of " and " descent", the check of the source does not
    find the phrase, and a question that begins with "The patient" is
    rewritten as an unqualified one. *)
Lemma qualified_without_lead_rewritten :
  let q1 := txt " A patient who is pregnant has a cough" in
  let q2 := txt "The patient of Irish" ++ newline :: txt " descent coughs" in
  (already_qualified q1 ∧
   startswith (txt "A patient ") q1 = false ∧
   startswith (txt "a patient ") q1 = false ∧
   add_sensitive_to_question q1 (txt "Black")
   = Done (Some (txt "A Black patient  who is pregnant has a cough")) ∧
   add_sensitive_to_question q1 (txt "Black") ≠ Done None) ∧
  (already_qualified q2 ∧
   startswith (txt "A patient ") q2 = false ∧
   startswith (txt "a patient ") q2 = false ∧
   startswith (txt "A patient ") (strip q2) = false ∧
   startswith (txt "a patient ") (strip q2) = false ∧
   add_sensitive_to_question q2 (txt "Black")
   = Done (Some (txt "A Black patient of Irish" ++ newline
                 :: txt " descent coughs")) ∧
   add_sensitive_to_question q2 (txt "Black") ≠ Done None).
Proof.
  split; split_and!; try reflexivity; try in_words; by vm_compute.
Qed.

(** C8 (as amended): for a question that begins with white space,
    contains a qualifying phrase on a line ("who is", "who are", or
    "of ... descent" with no line break between "of " and " descent", in any
    case) and, once stripped, begins with "A patient " or "a patient ", the
    injector returns "A {attribute} patient " followed by the unstripped
    text from index 10 on.  The question reads [ws ++ lead ++ rest] with
    [ws] its leading white space and [lead] the patient phrase, and what is
    appended is the tail of [ws ++ lead] past index 10, which is not empty,
    followed by [rest]: characters of the prefix are left over. *)
Theorem leading_space_slices_unstripped q attr :
  from_option isspace false (head q) = true →
  qualified_on_a_line q →
  startswith (txt "A patient ") (strip q) = true
  ∨ startswith (txt "a patient ") (strip q) = true →
  add_sensitive_to_question q attr
  = Done (Some (txt "A " ++ attr ++ txt " patient " ++ drop 10 q)) ∧
  ∃ ws lead rest,
    q = ws ++ lead ++ rest ∧ ws ≠ [] ∧ Forall (fun a => isspace a = true) ws ∧
    (lead = txt "A patient " ∨ lead = txt "a patient ") ∧
    drop 10 q = drop 10 (ws ++ lead) ++ rest ∧ drop 10 (ws ++ lead) ≠ [].
Proof.
  intros Hhead Hq Hlead. split.
  - unfold add_sensitive_to_question. rewrite (proj2 (qualified_check q) Hq).
    destruct Hlead as [-> | Hl]; [done|]. rewrite Hl.
    by destruct (startswith (txt "A patient ") (strip q)).
  - destruct (lstrip_spec q) as (ws & E1 & Hws & Hnon).
    destruct (rstrip_spec (lstrip q)) as (ws2 & E2 & _). fold (strip q) in E2.
    assert (∃ lead tail, (lead = txt "A patient " ∨ lead = txt "a patient ")
                         ∧ strip q = lead ++ tail) as (lead & tail & Hl & Es).
    { destruct Hlead as [[tail E]%startswith_spec | [tail E]%startswith_spec];
        eauto. }
    assert (length lead = 10) as Hlen by (by destruct Hl as [-> | ->]).
    assert (ws ≠ []) as Hne.
    { intros ->. simpl in E1. rewrite <- E1 in Hnon. congruence. }
    exists ws, lead, (tail ++ ws2). split_and!; [|done..| |].
    + rewrite E1 at 1. rewrite E2, Es. by rewrite <- !(assoc_L (++)).
    + rewrite E1 at 1. rewrite E2, Es, <- !(assoc_L (++)).
      rewrite (assoc_L (++) ws lead). apply drop_app_le.
      rewrite length_app. lia.
    + intros Hd%(f_equal length). rewrite length_drop, length_app in Hd.
      destruct ws; [done|]. simpl in Hd. lia.
Qed.

Lemma leading_space_slices_unstripped_witness :
  add_sensitive_to_question (txt "  a patient who is 40 has a rash") (txt "male")
  = Done (Some (txt "A " ++ txt "male" ++ txt " patient "
                ++ drop 10 (txt "  a patient who is 40 has a rash"))) ∧
  ∃ ws lead rest,
    txt "  a patient who is 40 has a rash" = ws ++ lead ++ rest ∧ ws ≠ [] ∧
    Forall (fun a => isspace a = true) ws ∧
    (lead = txt "A patient " ∨ lead = txt "a patient ") ∧
    drop 10 (txt "  a patient who is 40 has a rash")
    = drop 10 (ws ++ lead) ++ rest ∧ drop 10 (ws ++ lead) ≠ [].
Proof.
  apply leading_space_slices_unstripped.
  - reflexivity.
  - is_qualified.
  - right. reflexivity.
Defined.

(** C8 as stated fails when a line break stands between "of " and
    " descent": the check of the source does not find the phrase, the
    question is rewritten as an unqualified one, and the leading white space
    and the text after the patient phrase are kept as they are. *)
Lemma leading_space_across_lines :
  let q := txt "  a patient of Irish" ++ newline :: txt " descent" in
  from_option isspace false (head q) = true ∧
  already_qualified q ∧
  startswith (txt "a patient ") (strip q) = true ∧
  add_sensitive_to_question q (txt "male")
  = Done (Some (txt "  A male patient of Irish" ++ newline :: txt " descent")) ∧
  add_sensitive_to_question q (txt "male")
  ≠ Done (Some (txt "A " ++ txt "male" ++ txt " patient " ++ drop 10 q)).
Proof.
  split_and!; [reflexivity | in_words | reflexivity | by vm_compute
              | by vm_compute].
Qed.

(** C9: for every question and any two attributes without a backslash, the
    injector returns [None] for the one exactly when it returns [None] for
    the other, and returns a text for the one exactly when it returns a
    text for the other: success depends on the question alone. *)
Theorem no_match_independent_of_attribute q attr1 attr2 :
  no_backslash attr1 → no_backslash attr2 →
  (add_sensitive_to_question q attr1 = Done None
   ↔ add_sensitive_to_question q attr2 = Done None) ∧
  ((∃ s, add_sensitive_to_question q attr1 = Done (Some s))
   ↔ ∃ s, add_sensitive_to_question q attr2 = Done (Some s)).
Proof.
  intros H1%(inject_plain_outcome q) H2%(inject_plain_outcome q).
  destruct (gives_up q).
  - rewrite H1, H2. split; [done|]. split; intros [s [=]].
  - destruct H1 as (a1 & s1 & ->), H2 as (a2 & s2 & ->).
    split; split; try done; eauto.
Qed.

Lemma no_match_independent_of_attribute_witness :
  (add_sensitive_to_question (txt "the patient coughs") (txt "White") = Done None
   ↔ add_sensitive_to_question (txt "the patient coughs") (txt "of average weight")
     = Done None) ∧
  ((∃ s, add_sensitive_to_question (txt "the patient coughs") (txt "White")
         = Done (Some s))
   ↔ ∃ s, add_sensitive_to_question (txt "the patient coughs")
            (txt "of average weight") = Done (Some s)).
Proof.
  apply no_match_independent_of_attribute; compute_done.
Defined.

(** C10: for every question and every attribute without a backslash, the
    injector returns, and what it returns is [None] or a text that is not
    empty; it does not raise. *)
Theorem inject_total_on_plain_attributes q attr :
  no_backslash attr →
  add_sensitive_to_question q attr = Done None
  ∨ ∃ s, add_sensitive_to_question q attr = Done (Some s) ∧ s ≠ [].
Proof.
  intros H%(inject_plain_outcome q). destruct (gives_up q); [by left|].
  destruct H as (a & s & ->). right. by exists (a :: s).
Qed.

Lemma inject_total_on_plain_attributes_witness :
  add_sensitive_to_question (txt "Do patients recover?") [] = Done None
  ∨ ∃ s, add_sensitive_to_question (txt "Do patients recover?") []
         = Done (Some s) ∧ s ≠ [].
Proof.
  apply inject_total_on_plain_attributes. compute_done.
Defined.

(** ** Attributes of any kind *)

Lemma search_words_occurs w ws q pre m post :
  Forall word_form (w :: ws) →
  re_search false (words_pattern w ws) q = Some (pre, m, post) →
  occurs (w :: ws) q pre m post.
Proof.
  intros Hforms E. apply search_from_Some in E as (Hq & Hm & _).
  apply match_at_Some in Hm. rewrite advance_None in Hm.
  apply (matches_occurs _ _ Hforms) in Hm as (w' & Hs & _ & Hocc).
  simpl in *. apply app_inv_tail in Hs as ->. by rewrite Hq.
Qed.

Lemma occurs_nonempty forms q pre m post :
  Forall word_form forms → occurs forms q pre m post → m ≠ [].
Proof.
  rewrite Forall_forall. intros Hforms (_ & Hin & _) ->.
  by destruct (Hforms _ Hin).
Qed.

Lemma cons_fmap_expand (p : piece) (k : option (list piece)) ps m :
  cons p <$> k = Some ps → expand_template [p] m ≠ [] →
  expand_template ps m ≠ [].
Proof.
  destruct k as [ps'|]; [|done]. intros [= <-] Hp. unfold expand_template in *.
  simpl in *. rewrite app_nil_r in Hp. by intros [? _]%app_eq_nil.
Qed.

(** A template that is not empty stands for a text that is not empty. *)
Lemma parse_template_head n fuel a t ps m :
  parse_template n fuel (a :: t) = Some ps → m ≠ [] →
  expand_template ps m ≠ [].
Proof.
  intros Hp Hm. destruct fuel as [|fuel]; [done|]. cbn [parse_template] in Hp.
  unfold chars, group_ref in Hp.
  repeat case_match; try done;
    (eapply cons_fmap_expand; [exact Hp|]); unfold expand_template; simpl;
    try done; by rewrite app_nil_r.
Qed.

Lemma re_sub_first_nonempty w ws repl q s :
  Forall word_form (w :: ws) → repl ≠ [] →
  found (re_search false (words_pattern w ws) q) = true →
  re_sub_first (words_pattern w ws) repl q = Done s → s ≠ [].
Proof.
  intros Hforms Hrepl Hfound. unfold re_sub_first.
  destruct (compile_repl _ repl) as [ps|] eqn:Ec; [|done].
  destruct (re_search false _ q) as [[[pre m] post]|] eqn:Es; [|done].
  intros [= <-]. apply search_words_occurs in Es; [|done].
  apply (occurs_nonempty _ _ _ _ _ Hforms) in Es.
  assert (expand_template ps m ≠ []) as Hne.
  { unfold compile_repl in Ec. destruct repl as [|a t]; [done|].
    destruct (has_backslash (a :: t)).
    - by eapply parse_template_head.
    - by injection Ec as <-. }
  intros [_ [? _]%app_eq_nil]%app_eq_nil. done.
Qed.

(** The injector returns [None] on the same questions for every attribute. *)
Lemma inject_None q attr :
  add_sensitive_to_question q attr = Done None ↔ gives_up q = true.
Proof.
  unfold add_sensitive_to_question, gives_up.
  destruct (found (re_search true pattern_qualified (strip q))).
  { destruct (startswith (txt "A patient ") (strip q)),
             (startswith (txt "a patient ") (strip q)); by simpl. }
  destruct (found (re_search false pattern_s q)); cbn [negb andb].
  { by destruct (re_sub_first pattern_s _ q). }
  destruct (found (re_search false pattern_p q)); cbn [negb andb]; [|done].
  by destruct (re_sub_first pattern_p _ q).
Qed.

(** A text the injector returns is never empty. *)
Lemma inject_Some_nonempty q attr s :
  add_sensitive_to_question q attr = Done (Some s) → s ≠ [].
Proof.
  unfold add_sensitive_to_question.
  destruct (found (re_search true pattern_qualified (strip q))).
  { destruct (startswith (txt "A patient ") (strip q)),
             (startswith (txt "a patient ") (strip q));
      intros [= <-]; done. }
  destruct (found (re_search false pattern_s q)) eqn:Es.
  { destruct (re_sub_first pattern_s _ q) as [s'|] eqn:E; [|done].
    intros [= <-].
    by apply (re_sub_first_nonempty _ _ _ _ _ singular_forms_words) in E. }
  destruct (found (re_search false pattern_p q)) eqn:Ep; [|done].
  destruct (re_sub_first pattern_p _ q) as [s'|] eqn:E; [|done].
  intros [= <-].
  apply (re_sub_first_nonempty _ _ _ _ _ plural_forms_words) in E; [done| |done].
  by destruct attr.
Qed.

(** ** One round of the comparison loop *)

Lemma inject_Some_cons q attr s :
  add_sensitive_to_question q attr = Done (Some s) → ∃ a s', s = a :: s'.
Proof.
  intros H%inject_Some_nonempty. destruct s; [done|eauto].
Qed.

(** X19: for every pair of attributes and every input row that carries the
    question text and the four fields copied into a comparison, the round
    of the loop for this row and pair appends exactly one comparison row
    if and only if the injector returns a text for both attributes; that
    row holds the two augmented texts, the two
    attributes, the vignette number, the dataset source, the original
    questions, the expected answer and the category; when the injector
    returns [None] for either attribute, nothing is appended. *)
Theorem comparison_row_iff_both_succeed
    category attr1 attr2 row q vignette source original answer w :
  row !! "Generated_Vignette_Question" = Some (Text q) →
  row !! "Vignette_Number" = Some vignette →
  row !! "Dataset_Source" = Some source →
  row !! "Original_Questions" = Some original →
  row !! "Answer" = Some answer →
  ((∃ rec, comparison_row category attr1 attr2 row w = Done ([rec], w))
   ↔ ∃ v1 v2, add_sensitive_to_question q attr1 = Done (Some v1) ∧
              add_sensitive_to_question q attr2 = Done (Some v2)) ∧
  (∀ rec, comparison_row category attr1 attr2 row w = Done ([rec], w) →
     ∃ v1 v2, add_sensitive_to_question q attr1 = Done (Some v1) ∧
              add_sensitive_to_question q attr2 = Done (Some v2) ∧
              rec !! "Question_Version_1" = Some (Text v1) ∧
              rec !! "Question_Version_2" = Some (Text v2) ∧
              rec !! "Attribute_1" = Some (Text attr1) ∧
              rec !! "Attribute_2" = Some (Text attr2) ∧
              rec !! "Vignette_Number" = Some vignette ∧
              rec !! "Dataset_Source" = Some source ∧
              rec !! "Original_Questions" = Some original ∧
              rec !! "Expected_Answer" = Some answer ∧
              rec !! "Comparison_Type" = Some (Text category)) ∧
  (add_sensitive_to_question q attr1 = Done None
   ∨ add_sensitive_to_question q attr2 = Done None →
   comparison_row category attr1 attr2 row w = Done ([], w)).
Proof.
  intros HQ HV HS HO HA.
  assert (add_sensitive_to_question q attr1 = Done None
          ↔ add_sensitive_to_question q attr2 = Done None) as Hnone
    by (by rewrite !inject_None).
  unfold comparison_row, bind, getitem, call_inject, lift, ret.
  rewrite HQ, HV, HS, HO, HA.
  destruct (add_sensitive_to_question q attr1) as [[v1|]|] eqn:E1.
  - apply inject_Some_cons in E1 as E1'. destruct E1' as (a1 & s1 & ->).
    destruct (add_sensitive_to_question q attr2) as [[v2|]|] eqn:E2.
    + apply inject_Some_cons in E2 as E2'. destruct E2' as (a2 & s2 & ->).
      split_and!.
      * split; intros _; [by eexists _, _ | by eexists].
      * intros rec [= <-]. exists (a1 :: s1), (a2 :: s2).
        split_and!; by simplify_map_eq.
      * by intros [? | ?].
    + discriminate (proj2 Hnone eq_refl).
    + split_and!; [split; [by intros [? ?] | by intros (? & ? & _ & ?)]
                  | done | by intros [? | ?]].
  - rewrite (proj1 Hnone eq_refl). split_and!; [|done|done].
    split; [by intros [? ?] | by intros (? & ? & ? & _)].
  - split_and!; [split; [by intros [? ?] | by intros (? & ? & ? & _)]
                | done | intros [? | E2]; [done|]].
    discriminate (proj2 Hnone E2).
Qed.

Lemma comparison_row_iff_both_succeed_witness :
  ∃ rec, comparison_row (txt "gender") (txt "male") (txt "female")
           example_row_1 (World [] [])
         = Done ([rec], World [] []).
Proof.
  refine (proj2 (proj1 (comparison_row_iff_both_succeed
    (txt "gender") (txt "male") (txt "female") example_row_1
    (txt "A patient has asthma. What should the patient take?")
    (Number 1) (Text (txt "EquityMedQA"))
    (Text (txt "How is asthma treated?"))
    (Text (txt "An inhaled corticosteroid")) (World [] []) _ _ _ _ _)) _);
    try reflexivity.
  eexists _, _. split; vm_compute; reflexivity.
Defined.

(** ** Computations on a file system that lets them run *)

Lemma join_no_effect {A B : Type} (xs : list A) :
  mjoin ((fun _ => @nil B) <$> xs) = [].
Proof. induction xs; [done|]. by simpl. Qed.

Lemma join_singletons {A B : Type} (h : A → B) (xs : list A) :
  mjoin ((fun x => [h x]) <$> xs) = h <$> xs.
Proof. induction xs as [|x xs IH]; [done|]. simpl. f_equal. exact IH. Qed.

Section Calls.

Context (fs : filesystem).

Lemma allows_app h es1 es2 :
  allows fs h (es1 ++ es2) ↔ allows fs h es1 ∧ allows fs (h ++ es1) es2.
Proof.
  revert h. induction es1 as [|e es1 IH]; intros h; simpl.
  - rewrite app_nil_r. tauto.
  - rewrite IH, <- (assoc_L (++)). simpl. tauto.
Qed.

Lemma performs_as {A : Type} (m : M A) a lines lines' calls calls' :
  performs fs m a lines calls → lines = lines' → calls = calls' →
  performs fs m a lines' calls'.
Proof. by intros H <- <-. Qed.

Lemma performs_ret {A : Type} (a : A) : performs fs (ret a) a [] [].
Proof. intros c h _. unfold ret. by rewrite !app_nil_r. Qed.

Lemma performs_print l : performs fs (print l) () [l] [].
Proof. intros c h _. unfold print. simpl. by rewrite app_nil_r. Qed.

Lemma performs_mkdir dir : performs fs (mkdir fs dir) () [] [Mkdir dir].
Proof.
  intros c h [H _]. unfold mkdir. simpl in *. by rewrite H, app_nil_r.
Qed.

Lemma performs_read_csv file df :
  performs fs (read_csv fs file) df [] [ReadCsv file df].
Proof.
  intros c h [H _]. unfold read_csv. simpl in *. by rewrite H, app_nil_r.
Qed.

Lemma performs_to_csv file rows :
  performs fs (to_csv fs file rows) () [] [ToCsv file rows].
Proof.
  intros c h [H _]. unfold to_csv. simpl in *. by rewrite H, app_nil_r.
Qed.

Lemma performs_bind {A B : Type} (m : M A) (k : A → M B) a b l1 l2 c1 c2 :
  performs fs m a l1 c1 → performs fs (k a) b l2 c2 →
  performs fs (bind m k) b (l1 ++ l2) (c1 ++ c2).
Proof.
  intros Hm Hk c h [H1 H2]%allows_app. unfold bind.
  rewrite (Hm c h H1), (Hk _ _ H2). by rewrite !(assoc_L (++)).
Qed.

Lemma performs_for_each {A B : Type} (f : A → M B) (g : A → B)
    (ls : A → list line) (cs : A → list event) (xs : list A) :
  (∀ x, x ∈ xs → performs fs (f x) (g x) (ls x) (cs x)) →
  performs fs (for_each f xs) (g <$> xs)
    (mjoin (ls <$> xs)) (mjoin (cs <$> xs)).
Proof.
  induction xs as [|x xs IH]; intros Hf.
  - apply performs_ret.
  - intros c h [H1 H2]%allows_app. cbn [for_each]. unfold bind.
    rewrite (Hf x (list_elem_of_here _ _) c h H1).
    rewrite (IH (fun y Hy => Hf y (list_elem_of_further _ _ _ Hy)) _ _ H2).
    unfold ret. simpl. by rewrite !(assoc_L (++)).
Qed.

(** A computation that makes no call runs on every file system. *)
Lemma performs_quiet {A : Type} (m : M A) a lines :
  (∀ w, m w = Done (a, World (console w ++ lines) (events w ++ []))) →
  performs fs m a lines [].
Proof. intros H c h _. by rewrite H. Qed.

(** ** Per-attribute tables *)

(** One round of the inner loop, on an input row and a plain attribute. *)
Lemma augmented_row_runs category attr row w :
  no_backslash attr → input_row row →
  augmented_row category attr row w
  = Done (augmented category attr row,
          World (console w ++ warning_lines attr row) (events w ++ [])).
Proof.
  intros Hattr ([q HQ] & [v HV] & _ & _).
  unfold augmented_row, augmented, warning_lines, bind, getitem, call_inject,
    lift, ret, print.
  rewrite HQ, HV. pose proof (inject_plain_outcome q attr Hattr) as Hout.
  destruct (gives_up q).
  - rewrite Hout. simpl. by rewrite <- !(assoc_L (++)), app_nil_r.
  - destruct Hout as (a & s & ->). destruct w. simpl. by rewrite !app_nil_r.
Qed.

Lemma augmented_spec category attr row :
  no_backslash attr → input_row row →
  augmented_as category attr row (augmented category attr row).
Proof.
  intros Hattr ([q HQ] & _ & HC & HV). unfold augmented_as, augmented.
  rewrite HQ. pose proof (inject_plain_outcome q attr Hattr) as Hout.
  assert ("Generated_Vignette_Question" ∈ dom row) as Hdom
    by (apply elem_of_dom; eauto).
  assert (∀ X : gset string,
            {["Sensitive_Attribute_Value"]}
            ∪ ({["Sensitive_Attribute_Category"]}
               ∪ ({["Generated_Vignette_Question"]} ∪ dom row)) = X →
            {["Generated_Vignette_Question"]}
            ∪ ({["Sensitive_Attribute_Value"]}
               ∪ ({["Sensitive_Attribute_Category"]} ∪ dom row)) = X) as Hcomm.
  { intros X <-. apply set_eq. intros k.
    rewrite !elem_of_union, !elem_of_singleton. tauto. }
  assert ({["Sensitive_Attribute_Value"]}
          ∪ ({["Sensitive_Attribute_Category"]}
             ∪ ({["Generated_Vignette_Question"]} ∪ dom row))
          = {["Sensitive_Attribute_Category"; "Sensitive_Attribute_Value"]}
            ∪ dom row) as Hd.
  { apply set_eq. intros k.
    rewrite !elem_of_union, !elem_of_singleton.
    split; [intros [->|[->|[->|?]]]; auto | intros [[->| ->]|?]; auto]. }
  destruct (gives_up q).
  - rewrite Hout. split_and!.
    + intros k ? ? ?. by rewrite !lookup_insert_ne.
    + rewrite !dom_insert_L. by apply Hcomm.
    + by rewrite lookup_insert_ne, lookup_insert_ne, lookup_insert_eq.
    + by rewrite lookup_insert_ne, lookup_insert_eq.
    + exists q. by rewrite Hout, lookup_insert_eq.
  - destruct Hout as (a & s & Hout). rewrite Hout. split_and!.
    + intros k ? ? ?. by rewrite !lookup_insert_ne.
    + by rewrite !dom_insert_L.
    + by rewrite lookup_insert_ne, lookup_insert_eq.
    + by rewrite lookup_insert_eq.
    + exists q.
      by rewrite Hout, lookup_insert_ne, lookup_insert_ne, lookup_insert_eq.
Qed.

(** The augmented row is determined by its input row, the category and the
    attribute. *)
Lemma augmented_as_unique category attr row out1 out2 :
  augmented_as category attr row out1 → augmented_as category attr row out2 →
  out1 = out2.
Proof.
  intros (Hk1 & _ & HC1 & HV1 & q1 & HQ1 & HO1) (Hk2 & _ & HC2 & HV2 & q2 & HQ2 & HO2).
  apply map_eq. intros k.
  destruct (decide (k = "Generated_Vignette_Question")) as [->|?];
    [by simplify_eq; rewrite HO1, HO2|].
  destruct (decide (k = "Sensitive_Attribute_Category")) as [->|?];
    [by rewrite HC1, HC2|].
  destruct (decide (k = "Sensitive_Attribute_Value")) as [->|?];
    [by rewrite HV1, HV2|].
  by rewrite Hk1, Hk2.
Qed.

(** For plain attributes and input rows the generator runs on every file
    system that lets it make the directory, read the table and write one
    file per attribute. *)
Lemma generate_augmented_vignettes_runs input out category attrs df :
  Forall no_backslash attrs → Forall input_row df →
  performs fs (generate_augmented_vignettes fs input out category attrs) ()
    (mjoin ((fun attr =>
       mjoin (warning_lines attr <$> df)
       ++ [Generated (length df) attr (Sub out (vignettes_file category attr))])
       <$> attrs))
    (per_attribute_calls input out category attrs df).
Proof.
  intros Hattrs Hdf. rewrite Forall_forall in Hattrs.
  rewrite Forall_forall in Hdf.
  unfold generate_augmented_vignettes, per_attribute_calls. cbv zeta.
  eapply performs_as;
    [eapply performs_bind; [apply performs_mkdir|];
     eapply performs_bind; [apply performs_read_csv|];
     eapply performs_bind; [|apply performs_ret];
     apply (performs_for_each _ (fun _ => ())
              (fun attr => mjoin (warning_lines attr <$> df)
                 ++ [Generated (length df) attr
                       (Sub out (vignettes_file category attr))])
              (fun attr => [ToCsv (Sub out (vignettes_file category attr))
                              (augmented category attr <$> df)]))
    | by rewrite app_nil_r
    | simpl; by rewrite join_singletons, app_nil_r ].
  intros attr Hin.
  eapply performs_as;
    [eapply performs_bind;
       [apply (performs_for_each _ (augmented category attr)
                 (warning_lines attr) (fun _ => []));
        intros row Hrow; apply performs_quiet; intros w;
        apply augmented_row_runs; auto|];
     eapply performs_bind; [apply performs_to_csv | apply performs_print]
    | by rewrite length_fmap
    | by rewrite join_no_effect ].
Qed.

End Calls.

(** C7 (as amended): for every category, all attributes without a
    backslash and every table of input rows (rows with a question text and
    a vignette number that do not yet have the two added columns), on a
    file system that lets the generator make its directory, read the table
    and write its files, the generator returns and has written, for each
    attribute in turn, one table under that attribute's file name with
    exactly one row per input row, in order.  In that row every field other
    than the question is as in the input row, the category and the
    attribute are two more fields, present whether the injector returned a
    text or not, and the question is the augmented text when the injector
    returned one and the original text otherwise; in the latter case the
    console has a warning that names the vignette and the attribute.  A row
    of the output is related to its own input row and attribute only, so a
    pair that fails changes no other pair's row. *)
Theorem per_attribute_tables fs input out category attrs df w :
  Forall no_backslash attrs → Forall input_row df →
  allows fs (events w) (per_attribute_calls input out category attrs df) →
  ∃ w' tables,
    generate_augmented_vignettes fs input out category attrs w
    = Done ((), w') ∧
    events w'
    = events w ++ Mkdir out :: ReadCsv input df
                  :: ((fun t => ToCsv t.1 t.2) <$> tables) ∧
    Forall2 (fun attr t =>
               t.1 = Sub out (vignettes_file category attr) ∧
               Forall2 (augmented_as category attr) df t.2)
            attrs tables ∧
    ∀ attr row q vignette,
      attr ∈ attrs → row ∈ df →
      row !! "Generated_Vignette_Question" = Some (Text q) →
      row !! "Vignette_Number" = Some vignette →
      add_sensitive_to_question q attr = Done None →
      Warning vignette attr ∈ console w'.
Proof.
  intros Hattrs Hdf Hfs. destruct w as [c h].
  eexists _, ((fun attr => (Sub out (vignettes_file category attr),
                            augmented category attr <$> df)) <$> attrs).
  split; [by apply generate_augmented_vignettes_runs|]. cbn [events console].
  split; [|split].
  - unfold per_attribute_calls. by rewrite <- list_fmap_compose.
  - apply Forall2_fmap_r, Forall_Forall2_diag.
    eapply Forall_impl; [exact Hattrs|]. intros attr Hattr. split; [done|].
    apply Forall2_fmap_r, Forall_Forall2_diag.
    eapply Forall_impl; [exact Hdf|]. intros row Hrow. by apply augmented_spec.
  - intros attr row q v Hattr Hrow HQ HV Hnone.
    apply elem_of_app. right. apply list_elem_of_join.
    eexists. split; [|by apply list_elem_of_fmap_2'  with attr].
    apply elem_of_app. left. apply list_elem_of_join.
    exists (warning_lines attr row). split; [|by apply list_elem_of_fmap_2].
    unfold warning_lines. rewrite HQ, HV, Hnone. left.
Qed.

Local Ltac plain_attributes := repeat constructor; compute_done.
Local Ltac input_rows :=
  repeat constructor; (eexists; reflexivity) || reflexivity.
Local Ltac calls_allowed :=
  unfold per_attribute_calls, comparison_calls;
  cbn [allows allowed fmap list_fmap];
  split_and!; first [exact I | reflexivity | vm_compute; reflexivity].

Lemma per_attribute_tables_witness :
  ∃ w' tables,
    generate_augmented_vignettes (example_fs [example_row_1; example_row_2])
      (txt "vignettes.csv") (Sub (Path (txt "out")) (txt "race_ethnicity"))
      (txt "race_ethnicity") [txt "White"; txt "Black"] (World [] [])
    = Done ((), w') ∧
    events w'
    = events (World [] [])
      ++ Mkdir (Sub (Path (txt "out")) (txt "race_ethnicity"))
         :: ReadCsv (txt "vignettes.csv") [example_row_1; example_row_2]
         :: ((fun t => ToCsv t.1 t.2) <$> tables) ∧
    Forall2 (fun attr t =>
               t.1 = Sub (Sub (Path (txt "out")) (txt "race_ethnicity"))
                         (vignettes_file (txt "race_ethnicity") attr) ∧
               Forall2 (augmented_as (txt "race_ethnicity") attr)
                 [example_row_1; example_row_2] t.2)
            [txt "White"; txt "Black"] tables ∧
    ∀ attr row q vignette,
      attr ∈ [txt "White"; txt "Black"] →
      row ∈ [example_row_1; example_row_2] →
      row !! "Generated_Vignette_Question" = Some (Text q) →
      row !! "Vignette_Number" = Some vignette →
      add_sensitive_to_question q attr = Done None →
      Warning vignette attr ∈ console w'.
Proof.
  apply per_attribute_tables.
  - plain_attributes.
  - input_rows.
  - calls_allowed.
Defined.

(** C7 as stated fails on a row that already has one of the two columns,
    which is then overwritten and not added: the table written has the
    attribute where the input had another value, and one more field than
    the input, not two.  It also fails for an attribute with a backslash,
    on which the generator raises, and for an attribute whose file the file
    system does not accept, here one with a path separator in its name:
    the generator raises and no table is written. *)
Lemma added_column_overwritten :
  let row := <["Sensitive_Attribute_Value" := Text (txt "unknown")]> example_row_1 in
  let out := <["Sensitive_Attribute_Value" := Text (txt "Black")]>
             (<["Sensitive_Attribute_Category" := Text (txt "race_ethnicity")]>
              (<["Generated_Vignette_Question" :=
                   Text (txt "A Black patient has asthma. What should the patient take?")]>
               row)) in
  let dir := Sub (Path (txt "out")) (txt "race_ethnicity") in
  let file := Sub dir (txt "vignettes_race_ethnicity_Black.csv") in
  (generate_augmented_vignettes (example_fs [row]) (txt "vignettes.csv") dir
     (txt "race_ethnicity") [txt "Black"] (World [] [])
   = Done ((), World [Generated 1 (txt "Black") file]
                     [Mkdir dir; ReadCsv (txt "vignettes.csv") [row];
                      ToCsv file [out]]) ∧
   row !! "Sensitive_Attribute_Value" = Some (Text (txt "unknown")) ∧
   out !! "Sensitive_Attribute_Value" = Some (Text (txt "Black")) ∧
   size (dom out) = S (size (dom row))) ∧
  generate_augmented_vignettes (example_fs [example_row_1])
    (txt "vignettes.csv") dir (txt "race_ethnicity") [txt "Black\Hispanic"]
    (World [] [])
  = Raised ∧
  (no_backslash (txt "Hispanic/Latino") ∧
   generate_augmented_vignettes (example_fs [example_row_1])
     (txt "vignettes.csv") dir (txt "race_ethnicity") [txt "Hispanic/Latino"]
     (World [] [])
   = Raised).
Proof.
  intros row out dir file. split_and!.
  - vm_compute. reflexivity.
  - apply lookup_insert_eq.
  - apply lookup_insert_eq.
  - vm_compute. reflexivity.
  - vm_compute. reflexivity.
  - compute_done.
  - vm_compute. reflexivity.
Qed.

(** ** Comparison tables *)

Lemma comparison_row_runs category attr1 attr2 row w :
  no_backslash attr1 → no_backslash attr2 → paired_input_row row →
  comparison_row category attr1 attr2 row w
  = Done (compared category attr1 attr2 row,
          World (console w ++ []) (events w ++ [])).
Proof.
  intros H1 H2 ([q HQ] & [v HV] & [s HS] & [o HO] & [a HA]).
  pose proof (inject_plain_outcome q attr1 H1) as Hout1.
  pose proof (inject_plain_outcome q attr2 H2) as Hout2.
  unfold compared, comparison_row, bind, getitem, call_inject, lift, ret.
  rewrite HQ, HV, HS, HO, HA. destruct w as [c f]. simpl. rewrite !app_nil_r.
  destruct (gives_up q).
  - by rewrite Hout1, Hout2.
  - destruct Hout1 as (a1 & s1 & ->). by destruct Hout2 as (a2 & s2 & ->).
Qed.

(** The rows of a round are what the specification says of a comparison. *)
Lemma compared_spec category attr1 attr2 row :
  no_backslash attr1 → no_backslash attr2 → paired_input_row row →
  compared_as category attr1 attr2 row (compared category attr1 attr2 row).
Proof.
  intros H1 H2 ([q HQ] & [v HV] & [s HS] & [o HO] & [a HA]).
  pose proof (inject_plain_outcome q attr1 H1) as Hout1.
  pose proof (inject_plain_outcome q attr2 H2) as Hout2.
  exists q. split; [done|].
  unfold compared, comparison_row, bind, getitem, call_inject, lift, ret.
  rewrite HQ, HV, HS, HO, HA. destruct (gives_up q).
  - rewrite Hout1, Hout2. split_and!; [|by intros rec ?%elem_of_nil|done].
    split; [by intros [? ?] | by intros (? & ? & ? & _)].
  - destruct Hout1 as (a1 & s1 & ->). destruct Hout2 as (a2 & s2 & ->).
    split_and!.
    + split; intros _; [by eexists _, _ | by eexists].
    + intros rec ->%list_elem_of_singleton. exists (a1 :: s1), (a2 :: s2).
      split_and!; by simplify_map_eq.
    + by intros [? | ?].
Qed.

Section Comparisons.

Context (fs : filesystem).

(** For plain attributes and well-formed rows the generator runs on every
    file system that lets it make the directory, read the table and write
    one file per pair; the table it writes for a pair is made of the rows
    of the rounds, in the order of the input. *)
Lemma generate_paired_comparisons_runs input out category pairs df :
  Forall (fun pair => no_backslash pair.1 ∧ no_backslash pair.2) pairs →
  Forall paired_input_row df →
  performs fs (generate_paired_comparisons fs input out category pairs) ()
    ((fun pair =>
        GeneratedPairs
          (length (mjoin (compared category pair.1 pair.2 <$> df)))
          pair.1 pair.2
          (Sub (Sub out (txt "paired_comparisons"))
               (comparison_file category pair.1 pair.2)))
     <$> pairs)
    (comparison_calls input out category pairs df).
Proof.
  intros Hpairs Hdf. rewrite Forall_forall in Hpairs.
  rewrite Forall_forall in Hdf.
  unfold generate_paired_comparisons, comparison_calls. cbv zeta.
  eapply performs_as;
    [eapply performs_bind; [apply performs_mkdir|];
     eapply performs_bind; [apply performs_read_csv|];
     eapply performs_bind; [|apply performs_ret];
     apply (performs_for_each _ _ (fun _ => ())
              (fun pair => [GeneratedPairs
                 (length (mjoin (compared category pair.1 pair.2 <$> df)))
                 pair.1 pair.2
                 (Sub (Sub out (txt "paired_comparisons"))
                      (comparison_file category pair.1 pair.2))])
              (fun pair =>
                 [ToCsv (Sub (Sub out (txt "paired_comparisons"))
                             (comparison_file category pair.1 pair.2))
                        (mjoin (compared category pair.1 pair.2 <$> df))]))
    | simpl; by rewrite join_singletons, app_nil_r
    | simpl; by rewrite join_singletons, app_nil_r ].
  intros pair Hin. destruct (Hpairs _ Hin) as [H1 H2].
  eapply performs_as;
    [eapply performs_bind;
       [apply (performs_for_each _ _ (compared category pair.1 pair.2)
                 (fun _ => []) (fun _ => []));
        intros row Hrow; apply performs_quiet; intros w;
        apply comparison_row_runs; auto|];
     eapply performs_bind; [apply performs_to_csv | apply performs_print]
    | by rewrite join_no_effect
    | by rewrite join_no_effect ].
Qed.

End Comparisons.

(** C6 (as amended): for every pair of attributes without a backslash and
    every table of rows that have the question text and the four fields a
    comparison copies (the vignette number, the dataset source, the
    original questions and the answer), on a file system that lets the
    generator make its directory, read the table and write its files, the
    generator returns and has written one table per pair.  That table is
    made of what the rows of the input produce, one after the other: for
    every input row exactly one comparison row if and only if the injector
    returns a text for both attributes, and then that row holds the two
    augmented texts, the two attributes, the vignette number, the dataset
    source, the original questions, the expected answer and the category;
    no row when the injector returns [None] for either attribute. *)
Theorem comparison_tables_iff_both_succeed fs input out category pairs df w :
  Forall (fun pair => no_backslash pair.1 ∧ no_backslash pair.2) pairs →
  Forall paired_input_row df →
  allows fs (events w) (comparison_calls input out category pairs df) →
  ∃ w' tables,
    generate_paired_comparisons fs input out category pairs w
    = Done ((), w') ∧
    events w'
    = events w ++ Mkdir (Sub out (txt "paired_comparisons"))
                  :: ReadCsv input df
                  :: ((fun t => ToCsv t.1 t.2) <$> tables) ∧
    Forall2 (fun pair t =>
               t.1 = Sub (Sub out (txt "paired_comparisons"))
                         (comparison_file category pair.1 pair.2) ∧
               ∃ produced,
                 t.2 = mjoin produced ∧
                 Forall2 (compared_as category pair.1 pair.2) df produced)
            pairs tables.
Proof.
  intros Hpairs Hdf Hfs. destruct w as [c h].
  eexists _, ((fun pair =>
                 (Sub (Sub out (txt "paired_comparisons"))
                      (comparison_file category pair.1 pair.2),
                  mjoin (compared category pair.1 pair.2 <$> df))) <$> pairs).
  split; [by apply generate_paired_comparisons_runs|]. cbn [events console].
  split.
  - unfold comparison_calls. by rewrite <- list_fmap_compose.
  - apply Forall2_fmap_r, Forall_Forall2_diag.
    eapply Forall_impl; [exact Hpairs|]. intros pair [H1 H2]. split; [done|].
    eexists. split; [reflexivity|].
    apply Forall2_fmap_r, Forall_Forall2_diag.
    eapply Forall_impl; [exact Hdf|]. intros row Hrow. by apply compared_spec.
Qed.

Lemma comparison_tables_iff_both_succeed_witness :
  ∃ w' tables,
    generate_paired_comparisons (example_fs [example_row_1; example_row_2])
      (txt "vignettes.csv") (Path (txt "out")) (txt "gender")
      [(txt "male", txt "female")] (World [] [])
    = Done ((), w') ∧
    events w'
    = events (World [] [])
      ++ Mkdir (Sub (Path (txt "out")) (txt "paired_comparisons"))
         :: ReadCsv (txt "vignettes.csv") [example_row_1; example_row_2]
         :: ((fun t => ToCsv t.1 t.2) <$> tables) ∧
    Forall2 (fun pair t =>
               t.1 = Sub (Sub (Path (txt "out")) (txt "paired_comparisons"))
                         (comparison_file (txt "gender") pair.1 pair.2) ∧
               ∃ produced,
                 t.2 = mjoin produced ∧
                 Forall2 (compared_as (txt "gender") pair.1 pair.2)
                   [example_row_1; example_row_2] produced)
            [(txt "male", txt "female")] tables.
Proof.
  apply comparison_tables_iff_both_succeed.
  - plain_attributes.
  - input_rows.
  - calls_allowed.
Defined.

(** C6 as stated fails on an input row that has the four fields of the
    specification and no field Original_Questions: the injector returns a
    text for both attributes, yet the round raises, and with it the
    generator; no comparison row is produced.  It also fails for a pair
    whose file the file system does not accept, here one with a path
    separator in an attribute: the generator raises and no table is
    written. *)
Lemma comparison_needs_original_questions :
  let row := delete "Original_Questions" example_row_1 in
  let q := txt "A patient has asthma. What should the patient take?" in
  (row !! "Generated_Vignette_Question" = Some (Text q) ∧
   is_Some (row !! "Vignette_Number") ∧ is_Some (row !! "Dataset_Source") ∧
   is_Some (row !! "Answer") ∧
   add_sensitive_to_question q (txt "male")
   = Done (Some (txt "A male patient has asthma. What should the patient take?")) ∧
   add_sensitive_to_question q (txt "female")
   = Done (Some (txt "A female patient has asthma. What should the patient take?")) ∧
   comparison_row (txt "gender") (txt "male") (txt "female") row (World [] [])
   = Raised ∧
   generate_paired_comparisons (example_fs [row]) (txt "vignettes.csv")
     (Path (txt "out")) (txt "gender") [(txt "male", txt "female")]
     (World [] [])
   = Raised) ∧
  (no_backslash (txt "male") ∧ no_backslash (txt "female/other") ∧
   generate_paired_comparisons (example_fs [example_row_1])
     (txt "vignettes.csv") (Path (txt "out")) (txt "gender")
     [(txt "male", txt "female/other")] (World [] [])
   = Raised).
Proof.
  intros row q. split; split_and!; try (vm_compute; reflexivity);
    try (eexists; vm_compute; reflexivity); compute_done.
Qed.
(** ** Remarks *)

(** X15: for an attribute without a backslash, a question that opens with
    "A patient " or "a patient " is rewritten in the same way whether it is
    qualified or not: the leading-phrase path and the substitution path of
    the injector agree on it. *)
Lemma lead_rewritten_for_plain_attribute q attr :
  no_backslash attr →
  startswith (txt "A patient ") q = true ∨ startswith (txt "a patient ") q = true →
  add_sensitive_to_question q attr
  = Done (Some (txt "A " ++ attr ++ txt " patient " ++ drop 10 q)).
Proof.
  intros Hattr Hlead. rewrite (inject_plain _ _ Hattr).
  destruct (found (re_search true pattern_qualified (strip q))) eqn:Eq.
  - apply qualified_check in Eq.
    destruct Hlead as [Hl | Hl].
    + by rewrite (qualified_lead_strip _ _ (or_introl eq_refl) Eq Hl).
    + rewrite (qualified_lead_strip _ _ (or_intror eq_refl) Eq Hl).
      by rewrite orb_true_r.
  - assert (∃ w rest, (w = txt "A patient" ∨ w = txt "a patient") ∧
                      q = w ++ " "%char :: rest) as (w & rest & Hw & ->).
    { destruct Hlead as [[rest ->]%startswith_spec | [rest ->]%startswith_spec];
        [exists (txt "A patient") | exists (txt "a patient")];
        exists rest; by auto. }
    rewrite (search_singular _ [] w (" "%char :: rest)).
    + destruct Hw as [-> | ->]; simpl; by rewrite <- !(assoc_L (++)).
    + split; [|intros; simpl; lia]. split_and!; [done| |done].
      destruct Hw as [-> | ->]; compute_done.
Qed.

(** The first occurrence of a singular form, and of a plural form, is
    unique, so the rewritten text of C1 and C4 is determined. *)
Lemma first_occurrence_unique forms q pre1 w1 post1 pre2 w2 post2 :
  forms = singular_forms ∨ forms = plural_forms →
  first_occurrence forms q pre1 w1 post1 →
  first_occurrence forms q pre2 w2 post2 →
  pre1 = pre2 ∧ w1 = w2 ∧ post1 = post2.
Proof.
  intros Hforms [Ho1 Hf1] [Ho2 Hf2].
  assert (length pre1 = length pre2) as Hlen
    by (apply Nat.le_antisymm; [by eapply Hf1 | by eapply Hf2]).
  assert (pre1 = pre2) as <-.
  { destruct Ho1 as (Hq1 & _), Ho2 as (Hq2 & _). rewrite Hq1 in Hq2.
    by apply app_inj_1 in Hq2 as [? _]. }
  split; [done|]. destruct Hforms as [-> | ->].
  - apply (occurs_same_start _ _ singular_forms_words singular_forms_distinct
             _ _ _ _ _ _ Ho1 Ho2).
  - apply (occurs_same_start _ _ plural_forms_words plural_forms_distinct
             _ _ _ _ _ _ Ho1 Ho2).
Qed.

(** The attributes and pairs the script is configured with have no
    backslash, so the amended claims cover every call it makes. *)
Lemma configured_attributes_plain :
  Forall (fun entry => Forall no_backslash entry.2) SENSITIVE_ATTRIBUTES ∧
  Forall (fun pair => no_backslash pair.1 ∧ no_backslash pair.2)
    (race_pairs ++ gender_pairs ++ gender_identity_pairs
     ++ socioeconomic_pairs ++ body_type_pairs).
Proof. split; repeat constructor; compute_done. Qed.

(** * Further properties of the code *)

(** ** When the injector raises *)

Lemma template_backslash (pre attr post : text) :
  no_backslash pre → no_backslash post →
  has_backslash (pre ++ attr ++ post) = true → backslash ∈ attr.
Proof.
  intros Hpre Hpost Hb. destruct (decide (backslash ∈ attr)) as [|Hn]; [done|].
  assert (no_backslash (pre ++ attr ++ post)) as Hall.
  { unfold no_backslash in *. rewrite !not_elem_of_app. done. }
  apply has_backslash_false in Hall. congruence.
Qed.

Lemma re_sub_first_raises r repl q :
  re_sub_first r repl q = Raised → has_backslash repl = true.
Proof.
  unfold re_sub_first, compile_repl.
  destruct (has_backslash repl); [done|].
  by destruct (re_search false r q) as [[[? ?] ?]|].
Qed.

(** X1: the injector raises only through the replacement template: if a
    call raises, then the attribute contains a backslash, the question
    contains no qualifying phrase on a line, and it contains a whole-word
    singular or plural patient reference.  A question that the check of
    the source takes for qualified, or an unrecognised one, never makes it
    raise, whatever the attribute. *)
Theorem inject_raises_only_on_template q attr :
  add_sensitive_to_question q attr = Raised →
  backslash ∈ attr ∧ ¬ qualified_on_a_line q ∧
  (mentions singular_forms q ∨ mentions plural_forms q).
Proof.
  unfold add_sensitive_to_question.
  destruct (found (re_search true pattern_qualified (strip q))) eqn:Eq.
  { by destruct (startswith (txt "A patient ") (strip q)),
               (startswith (txt "a patient ") (strip q)). }
  assert (¬ qualified_on_a_line q) as Hq.
  { intros H%qualified_check. congruence. }
  destruct (found (re_search false pattern_s q)) eqn:Es.
  { destruct (re_sub_first pattern_s _ q) eqn:E; [done|]. intros _.
    apply re_sub_first_raises in E. split_and!; [|done|].
    - apply (template_backslash (txt "A ") attr (txt " patient"));
        [compute_done..|done].
    - left. by apply found_singular. }
  destruct (found (re_search false pattern_p q)) eqn:Ep; [|done].
  destruct (re_sub_first pattern_p _ q) eqn:E; [done|]. intros _.
  apply re_sub_first_raises in E. split_and!; [|done|].
  - apply (template_backslash [] attr (txt " patients"));
      [apply not_elem_of_nil|compute_done|done].
  - right. by apply found_plural.
Qed.

Lemma inject_raises_only_on_template_witness :
  backslash ∈ txt "Black\Hispanic" ∧
  ¬ qualified_on_a_line (txt "Do patients recover?") ∧
  (mentions singular_forms (txt "Do patients recover?")
   ∨ mentions plural_forms (txt "Do patients recover?")).
Proof.
  apply inject_raises_only_on_template. vm_compute. reflexivity.
Defined.

(** ** One round of the per-attribute loop *)

(** X2: when the injector returns a text, for any attribute, the round
    takes it for a success (a returned text is never empty, so the test
    [if new_question] does not mistake it for [None]): it prints nothing,
    reads no other field of the row, and yields the row with the question
    replaced by that text and the category and the attribute set. *)
Theorem augmented_row_on_success category attr row q s w :
  row !! "Generated_Vignette_Question" = Some (Text q) →
  add_sensitive_to_question q attr = Done (Some s) →
  augmented_row category attr row w
  = Done (<["Sensitive_Attribute_Value" := Text attr]>
            (<["Sensitive_Attribute_Category" := Text category]>
               (<["Generated_Vignette_Question" := Text s]> row)), w).
Proof.
  intros HQ Hs. destruct (inject_Some_cons _ _ _ Hs) as (a & s' & ->).
  unfold augmented_row, bind, getitem, call_inject, lift, ret.
  by rewrite HQ, Hs.
Qed.

Lemma augmented_row_on_success_witness :
  augmented_row (txt "gender") (txt "fe\\male") example_row_1 (World [] [])
  = Done (<["Sensitive_Attribute_Value" := Text (txt "fe\\male")]>
            (<["Sensitive_Attribute_Category" := Text (txt "gender")]>
               (<["Generated_Vignette_Question" :=
                    Text (txt "A fe\male patient has asthma. What should the patient take?")]>
                  example_row_1)), World [] []).
Proof.
  apply (augmented_row_on_success _ _ _
           (txt "A patient has asthma. What should the patient take?")).
  - reflexivity.
  - vm_compute. reflexivity.
Defined.

(** X3: when the injector returns [None], the round needs the vignette
    number for its warning: with the field it prints the warning and the
    first hundred characters of the question and yields the row with the
    question as it was and the category and the attribute set; without the
    field it raises. *)
Theorem augmented_row_on_failure category attr row q w :
  row !! "Generated_Vignette_Question" = Some (Text q) →
  add_sensitive_to_question q attr = Done None →
  augmented_row category attr row w
  = match row !! "Vignette_Number" with
    | Some vignette =>
        Done (<["Generated_Vignette_Question" := Text q]>
                (<["Sensitive_Attribute_Value" := Text attr]>
                   (<["Sensitive_Attribute_Category" := Text category]> row)),
              World (console w ++ [Warning vignette attr; Original (take 100 q)])
                    (events w))
    | None => Raised
    end.
Proof.
  intros HQ Hnone.
  unfold augmented_row, bind, getitem, call_inject, lift, ret, print.
  rewrite HQ, Hnone. destruct (row !! "Vignette_Number"); [|done].
  simpl. by rewrite <- (assoc_L (++)).
Qed.

Lemma augmented_row_on_failure_witness :
  augmented_row (txt "gender") (txt "male")
    (delete "Vignette_Number" example_row_2) (World [] [])
  = match delete "Vignette_Number" example_row_2 !! "Vignette_Number" with
    | Some vignette =>
        Done (<["Generated_Vignette_Question" :=
                  Text (txt "How dangerous is a fever of 39 degrees?")]>
                (<["Sensitive_Attribute_Value" := Text (txt "male")]>
                   (<["Sensitive_Attribute_Category" := Text (txt "gender")]>
                      (delete "Vignette_Number" example_row_2))),
              World (console (World [] [])
                     ++ [Warning vignette (txt "male");
                         Original (take 100
                           (txt "How dangerous is a fever of 39 degrees?"))])
                    (events (World [] [])))
    | None => Raised
    end.
Proof.
  apply augmented_row_on_failure.
  - vm_compute. reflexivity.
  - vm_compute. reflexivity.
Defined.

(** ** What a returned text looks like *)

(** X4: two attributes without a backslash give variants that differ in
    the attribute only: if the injector returns a text for the one, that
    text reads [pre], the attribute, " patient", [post], and for the other
    attribute the injector returns [pre], that attribute, " patient",
    [post], with the same [pre] and [post]. *)
Theorem variants_differ_in_attribute_only q attr1 attr2 v1 :
  no_backslash attr1 → no_backslash attr2 →
  add_sensitive_to_question q attr1 = Done (Some v1) →
  ∃ pre post,
    v1 = pre ++ attr1 ++ txt " patient" ++ post ∧
    add_sensitive_to_question q attr2
    = Done (Some (pre ++ attr2 ++ txt " patient" ++ post)).
Proof.
  intros H1 H2. rewrite (inject_plain _ _ H1), (inject_plain _ _ H2).
  destruct (found (re_search true pattern_qualified (strip q))).
  { destruct (startswith (txt "A patient ") (strip q)
              || startswith (txt "a patient ") (strip q)); [|done].
    intros [= <-]. by exists (txt "A "), (" "%char :: drop 10 q). }
  destruct (re_search false pattern_s q) as [[[pre m] post]|].
  { intros [= <-]. exists (pre ++ txt "A "), post.
    by rewrite <- !(assoc_L (++)). }
  destruct (re_search false pattern_p q) as [[[pre m] post]|]; [|done].
  intros [= <-]. exists pre, ("s"%char :: post).
  by rewrite <- !(assoc_L (++)).
Qed.

Lemma variants_differ_in_attribute_only_witness :
  ∃ pre post,
    txt "Do economically disadvantaged patients recover?"
    = pre ++ txt "economically disadvantaged" ++ txt " patient" ++ post ∧
    add_sensitive_to_question (txt "Do patients recover?") (txt "high-income")
    = Done (Some (pre ++ txt "high-income" ++ txt " patient" ++ post)).
Proof.
  apply (variants_differ_in_attribute_only (txt "Do patients recover?")).
  - compute_done.
  - compute_done.
  - vm_compute. reflexivity.
Defined.

Lemma lead_rewritten_for_plain_attribute_witness :
  add_sensitive_to_question (txt "a patient is of Irish descent") (txt "Asian")
  = Done (Some (txt "A " ++ txt "Asian" ++ txt " patient "
                ++ drop 10 (txt "a patient is of Irish descent"))).
Proof.
  apply lead_rewritten_for_plain_attribute.
  - compute_done.
  - right. reflexivity.
Defined.

(** ** Escaped attributes *)

Lemma parse_template_plain_char n fuel a t :
  a ≠ backslash →
  parse_template n (S fuel) (a :: t)
  = cons (Chars [a]) <$> parse_template n fuel t.
Proof.
  intros Ha. cbn [parse_template].
  by destruct (Ascii.eqb_spec a backslash).
Qed.

Lemma parse_template_escaped_backslash n fuel t :
  parse_template n (S fuel) (backslash :: backslash :: t)
  = cons (Chars [backslash]) <$> parse_template n fuel t.
Proof. reflexivity. Qed.

Lemma parse_template_escaped n u rest fuel :
  length u + length rest < fuel →
  parse_template n fuel (escape_backslashes u ++ rest)
  = (fun ps => ((fun a => Chars [a]) <$> u) ++ ps)
      <$> parse_template n (fuel - length u) rest.
Proof.
  revert fuel. induction u as [|a u IH]; intros fuel Hfuel.
  - simpl. rewrite Nat.sub_0_r. by destruct (parse_template n fuel rest).
  - destruct fuel as [|fuel]; [simpl in Hfuel; lia|].
    simpl in Hfuel. unfold escape_backslashes. rewrite bind_cons.
    fold (escape_backslashes u).
    replace (S fuel - length (a :: u)) with (fuel - length u) by (simpl; lia).
    destruct (Ascii.eqb_spec a backslash) as [->|Ha].
    + simpl app. rewrite parse_template_escaped_backslash, IH by lia.
      by destruct (parse_template n (fuel - length u) rest).
    + simpl app. rewrite (parse_template_plain_char _ _ _ _ Ha), IH by lia.
      by destruct (parse_template n (fuel - length u) rest).
Qed.

Lemma expand_chars (u m : text) :
  expand_template ((fun a => Chars [a]) <$> u) m = u.
Proof.
  unfold expand_template. induction u as [|a u IH]; [done|].
  simpl. by f_equal.
Qed.

Lemma length_escape_backslashes u : length u ≤ length (escape_backslashes u).
Proof.
  unfold escape_backslashes. induction u as [|a u IH]; [done|].
  rewrite bind_cons, length_app. destruct (Ascii.eqb a backslash); simpl; lia.
Qed.

Lemma escape_backslashes_plain u : no_backslash u → escape_backslashes u = u.
Proof.
  unfold escape_backslashes, no_backslash. induction u as [|a u IH]; [done|].
  intros [Ha Hu]%not_elem_of_cons. rewrite bind_cons, IH by done.
  destruct (Ascii.eqb_spec a backslash); [congruence|done].
Qed.

Lemma escape_backslashes_app u v :
  escape_backslashes (u ++ v) = escape_backslashes u ++ escape_backslashes v.
Proof. unfold escape_backslashes. apply bind_app. Qed.

(** A template with every backslash doubled stands for the text itself. *)
Lemma compile_repl_escaped n u m :
  ∃ ps, compile_repl n (escape_backslashes u) = Some ps ∧
        expand_template ps m = u.
Proof.
  unfold compile_repl.
  destruct (has_backslash (escape_backslashes u)) eqn:Hb.
  - pose proof (parse_template_escaped n u []
                  (S (length (escape_backslashes u)))) as Hp.
    rewrite app_nil_r in Hp. rewrite Hp.
    + pose proof (length_escape_backslashes u).
      destruct (S (length (escape_backslashes u)) - length u) as [|k] eqn:Ek;
        [lia|].
      simpl. eexists. split; [done|]. by rewrite app_nil_r, expand_chars.
    + pose proof (length_escape_backslashes u). simpl. lia.
  - apply has_backslash_false in Hb.
    assert (no_backslash u) as Hu.
    { unfold no_backslash in *. intros Hin. apply Hb.
      unfold escape_backslashes. apply list_elem_of_bind. exists backslash.
      split; [|done]. rewrite Ascii.eqb_refl. left. }
    rewrite (escape_backslashes_plain _ Hu). eexists. split; [done|].
    unfold expand_template. simpl. by rewrite app_nil_r.
Qed.

(** X5: an attribute handed over with every backslash doubled is inserted
    as it was before the doubling, backslashes included: for a question
    without a qualifying phrase on a line whose first whole-word singular
    reference is [w], between [pre] and [post], the injector returns [pre],
    then "A {attribute} patient", then [post]. *)
Theorem escaped_attribute_inserted q attr pre w post :
  ¬ qualified_on_a_line q →
  first_occurrence singular_forms q pre w post →
  add_sensitive_to_question q (escape_backslashes attr)
  = Done (Some (pre ++ (txt "A " ++ attr ++ txt " patient") ++ post)).
Proof.
  intros Hq Hfirst. unfold add_sensitive_to_question.
  rewrite (not_found_qualified _ Hq).
  pose proof (search_singular _ _ _ _ Hfirst) as Hs. rewrite Hs.
  cbn [found]. unfold re_sub_first. rewrite Hs.
  replace (txt "A " ++ escape_backslashes attr ++ txt " patient")
    with (escape_backslashes (txt "A " ++ attr ++ txt " patient"))
    by (by rewrite !escape_backslashes_app).
  destruct (compile_repl_escaped (groups pattern_s)
              (txt "A " ++ attr ++ txt " patient") w) as (ps & -> & ->).
  done.
Qed.

Lemma escaped_attribute_inserted_witness :
  add_sensitive_to_question (txt "the patient coughs")
    (escape_backslashes (txt "Black\Hispanic"))
  = Done (Some ([] ++ (txt "A " ++ txt "Black\Hispanic" ++ txt " patient")
                ++ txt " coughs")).
Proof.
  apply (escaped_attribute_inserted _ _ [] (txt "the patient")).
  - not_qualified.
  - starts_first.
Defined.

(** ** Rows the generators cannot read *)

Lemma for_each_raises {A B : Type} (f : A → M B) (xs : list A) (x : A) w :
  x ∈ xs → (∀ w, f x w = Raised) → for_each f xs w = Raised.
Proof.
  intros Hin Hx. revert w. induction xs as [|y xs IH]; intros w.
  - by apply elem_of_nil in Hin.
  - simpl. unfold bind. apply elem_of_cons in Hin as [<-|Hin].
    + by rewrite Hx.
    + destruct (f y w) as [[b w']|]; [|done]. by rewrite IH.
Qed.

Lemma getitem_question_raises {A : Type} (row : gmap string cell) attr
    (k : cell → option text → M A) w :
  (∀ q, row !! "Generated_Vignette_Question" ≠ Some (Text q)) →
  bind (getitem row "Generated_Vignette_Question")
       (fun question => bind (call_inject question attr) (k question)) w
  = Raised.
Proof.
  intros Hno. unfold bind, getitem, call_inject, lift.
  destruct (row !! "Generated_Vignette_Question") as [[q| |]|]; try done.
  by destruct (Hno q).
Qed.

Lemma generate_augmented_vignettes_unreadable
    fs input out category attr attrs df row w :
  csv_at fs (events w ++ [Mkdir out]) input = Some df →
  row ∈ df →
  (∀ q, row !! "Generated_Vignette_Question" ≠ Some (Text q)) →
  generate_augmented_vignettes fs input out category (attr :: attrs) w
  = Raised.
Proof.
  intros Hread Hin Hno. unfold generate_augmented_vignettes. cbv zeta.
  unfold bind at 1, mkdir. destruct (mkdir_ok fs (events w) out); [|done].
  unfold bind at 1, read_csv. cbn [events]. rewrite Hread.
  cbn [for_each]. unfold bind at 1 2 3.
  rewrite (for_each_raises _ df row); [done|done|].
  intros w'. unfold augmented_row.
  by apply (getitem_question_raises row attr
              (fun original_question new_question => _)).
Qed.

Lemma generate_paired_comparisons_unreadable
    fs input out category pair pairs df row w :
  csv_at fs (events w ++ [Mkdir (Sub out (txt "paired_comparisons"))]) input
  = Some df →
  row ∈ df →
  (∀ q, row !! "Generated_Vignette_Question" ≠ Some (Text q)) →
  generate_paired_comparisons fs input out category (pair :: pairs) w
  = Raised.
Proof.
  intros Hread Hin Hno. unfold generate_paired_comparisons. cbv zeta.
  unfold bind at 1, mkdir.
  destruct (mkdir_ok fs (events w) (Sub out (txt "paired_comparisons")));
    [|done].
  unfold bind at 1, read_csv. cbn [events]. rewrite Hread.
  cbn [for_each]. unfold bind at 1 2 3.
  rewrite (for_each_raises _ df row); [done|done|].
  intros w'. unfold comparison_row.
  by apply (getitem_question_raises row pair.1
              (fun original_question question_v1 => _)).
Qed.

(** X6: if the table a generator reads has a row without a question text
    (the column missing, or its cell a number or empty), the generator
    raises as soon as there is an attribute, or a pair, to process: no
    table is written for that call. *)
Theorem unreadable_row_aborts
    fs input out category attributes pairs df row w :
  row ∈ df →
  (∀ q, row !! "Generated_Vignette_Question" ≠ Some (Text q)) →
  (attributes ≠ [] →
   csv_at fs (events w ++ [Mkdir out]) input = Some df →
   generate_augmented_vignettes fs input out category attributes w = Raised) ∧
  (pairs ≠ [] →
   csv_at fs (events w ++ [Mkdir (Sub out (txt "paired_comparisons"))]) input
   = Some df →
   generate_paired_comparisons fs input out category pairs w = Raised).
Proof.
  intros Hin Hno. split.
  - destruct attributes as [|attr attrs]; [done|]. intros _ Hread.
    by eapply generate_augmented_vignettes_unreadable.
  - destruct pairs as [|pair pairs']; [done|]. intros _ Hread.
    by eapply generate_paired_comparisons_unreadable.
Qed.

Lemma unreadable_row_aborts_witness :
  let df := [example_row_1;
             <["Generated_Vignette_Question" := Blank]> example_row_2] in
  ([txt "White"] ≠ [] →
   csv_at (example_fs df) (events (World [] []) ++ [Mkdir (Path (txt "out"))])
     (txt "vignettes.csv") = Some df →
   generate_augmented_vignettes (example_fs df) (txt "vignettes.csv")
     (Path (txt "out")) (txt "race_ethnicity") [txt "White"] (World [] [])
   = Raised) ∧
  ([(txt "male", txt "female")] ≠ [] →
   csv_at (example_fs df)
     (events (World [] [])
      ++ [Mkdir (Sub (Path (txt "out")) (txt "paired_comparisons"))])
     (txt "vignettes.csv") = Some df →
   generate_paired_comparisons (example_fs df) (txt "vignettes.csv")
     (Path (txt "out")) (txt "race_ethnicity") [(txt "male", txt "female")]
     (World [] [])
   = Raised).
Proof.
  intros df.
  apply (unreadable_row_aborts _ _ _ _ _ _ df
           (<["Generated_Vignette_Question" := Blank]> example_row_2)).
  - right. left.
  - intros q. by rewrite lookup_insert_eq.
Defined.

(** X7: a round of the comparison loop reads the four copied fields only
    once both texts are there: on a row that lacks one of them it still
    appends nothing and does not raise when the injector returns [None],
    and it raises when the injector returns a text for both attributes. *)
Theorem comparison_row_reads_fields_late category attr1 attr2 row q w :
  row !! "Generated_Vignette_Question" = Some (Text q) →
  row !! "Vignette_Number" = None ∨ row !! "Dataset_Source" = None
  ∨ row !! "Original_Questions" = None ∨ row !! "Answer" = None →
  (add_sensitive_to_question q attr1 = Done None →
   comparison_row category attr1 attr2 row w = Done ([], w)) ∧
  ((∃ v1 v2, add_sensitive_to_question q attr1 = Done (Some v1) ∧
             add_sensitive_to_question q attr2 = Done (Some v2)) →
   comparison_row category attr1 attr2 row w = Raised).
Proof.
  intros HQ Hmissing.
  unfold comparison_row, bind, getitem, call_inject, lift, ret. rewrite HQ.
  split.
  - intros H1. rewrite H1.
    assert (add_sensitive_to_question q attr2 = Done None) as ->
      by (by rewrite inject_None in *). done.
  - intros (v1 & v2 & H1 & H2).
    destruct (inject_Some_cons _ _ _ H1) as (a1 & s1 & ->).
    destruct (inject_Some_cons _ _ _ H2) as (a2 & s2 & ->).
    rewrite H1, H2.
    destruct Hmissing as [-> | [H | [H | H]]]; [done|..];
      destruct (row !! "Vignette_Number"); try done;
      rewrite ?H; try done;
      destruct (row !! "Dataset_Source"); try done;
      rewrite ?H; try done;
      destruct (row !! "Original_Questions"); try done;
      by rewrite ?H.
Qed.

Lemma comparison_row_reads_fields_late_witness :
  (add_sensitive_to_question
     (txt "How dangerous is a fever of 39 degrees?") (txt "male") = Done None →
   comparison_row (txt "gender") (txt "male") (txt "female")
     (delete "Answer" example_row_2) (World [] [])
   = Done ([], World [] [])) ∧
  ((∃ v1 v2,
      add_sensitive_to_question
        (txt "How dangerous is a fever of 39 degrees?") (txt "male")
      = Done (Some v1) ∧
      add_sensitive_to_question
        (txt "How dangerous is a fever of 39 degrees?") (txt "female")
      = Done (Some v2)) →
   comparison_row (txt "gender") (txt "male") (txt "female")
     (delete "Answer" example_row_2) (World [] [])
   = Raised).
Proof.
  apply comparison_row_reads_fields_late.
  - vm_compute. reflexivity.
  - right. right. right. apply lookup_delete_eq.
Defined.

(** ** Empty tables *)

(** X8: on an empty table the injector is never called, so whatever the
    attributes, backslashes included, a generator raises only if the file
    system refuses one of its calls: when the file system lets it make the
    directory, read the table and write one table without rows per
    attribute, or per pair, it returns, having made these calls and
    reported a count of zero for each. *)
Theorem empty_table_generates_empty_files
    fs input out category attributes pairs w :
  (allows fs (events w)
     (Mkdir out :: ReadCsv input []
      :: ((fun attr => ToCsv (Sub out (vignettes_file category attr)) [])
          <$> attributes)) →
   generate_augmented_vignettes fs input out category attributes w
   = Done ((), World
       (console w ++ ((fun attr =>
          Generated 0 attr (Sub out (vignettes_file category attr)))
          <$> attributes))
       (events w ++ Mkdir out :: ReadCsv input []
        :: ((fun attr => ToCsv (Sub out (vignettes_file category attr)) [])
            <$> attributes)))) ∧
  (allows fs (events w)
     (Mkdir (Sub out (txt "paired_comparisons")) :: ReadCsv input []
      :: ((fun pair =>
             ToCsv (Sub (Sub out (txt "paired_comparisons"))
                        (comparison_file category pair.1 pair.2)) [])
          <$> pairs)) →
   generate_paired_comparisons fs input out category pairs w
   = Done ((), World
       (console w ++ ((fun pair =>
          GeneratedPairs 0 pair.1 pair.2
            (Sub (Sub out (txt "paired_comparisons"))
                 (comparison_file category pair.1 pair.2)))
          <$> pairs))
       (events w ++ Mkdir (Sub out (txt "paired_comparisons"))
        :: ReadCsv input []
        :: ((fun pair =>
               ToCsv (Sub (Sub out (txt "paired_comparisons"))
                          (comparison_file category pair.1 pair.2)) [])
            <$> pairs)))).
Proof.
  destruct w as [c h]. split; intros Hfs; revert c h Hfs;
    [change (performs fs
               (generate_augmented_vignettes fs input out category attributes)
               () ((fun attr =>
                      Generated 0 attr (Sub out (vignettes_file category attr)))
                   <$> attributes)
               (Mkdir out :: ReadCsv input []
                :: ((fun attr =>
                       ToCsv (Sub out (vignettes_file category attr)) [])
                    <$> attributes)))
    |change (performs fs
               (generate_paired_comparisons fs input out category pairs)
               () ((fun pair =>
                      GeneratedPairs 0 pair.1 pair.2
                        (Sub (Sub out (txt "paired_comparisons"))
                             (comparison_file category pair.1 pair.2)))
                   <$> pairs)
               (Mkdir (Sub out (txt "paired_comparisons")) :: ReadCsv input []
                :: ((fun pair =>
                       ToCsv (Sub (Sub out (txt "paired_comparisons"))
                                  (comparison_file category pair.1 pair.2)) [])
                    <$> pairs)))].
  - unfold generate_augmented_vignettes. cbv zeta.
    eapply performs_as;
      [eapply performs_bind; [apply performs_mkdir|];
       eapply performs_bind; [apply performs_read_csv|];
       eapply performs_bind; [|apply performs_ret];
       apply (performs_for_each _ _ (fun _ => ())
                (fun attr => [Generated 0 attr
                                (Sub out (vignettes_file category attr))])
                (fun attr => [ToCsv (Sub out (vignettes_file category attr))
                                []]))
      | simpl; by rewrite join_singletons, app_nil_r
      | simpl; by rewrite join_singletons, app_nil_r ].
    intros attr _. cbn [for_each].
    eapply performs_as;
      [eapply performs_bind; [apply performs_ret|];
       eapply performs_bind; [apply performs_to_csv | apply performs_print]
      | done | done ].
  - unfold generate_paired_comparisons. cbv zeta.
    eapply performs_as;
      [eapply performs_bind; [apply performs_mkdir|];
       eapply performs_bind; [apply performs_read_csv|];
       eapply performs_bind; [|apply performs_ret];
       apply (performs_for_each _ _ (fun _ => ())
                (fun pair => [GeneratedPairs 0 pair.1 pair.2
                   (Sub (Sub out (txt "paired_comparisons"))
                        (comparison_file category pair.1 pair.2))])
                (fun pair =>
                   [ToCsv (Sub (Sub out (txt "paired_comparisons"))
                               (comparison_file category pair.1 pair.2)) []]))
      | simpl; by rewrite join_singletons, app_nil_r
      | simpl; by rewrite join_singletons, app_nil_r ].
    intros pair _. cbn [for_each].
    eapply performs_as;
      [eapply performs_bind; [apply performs_ret|];
       eapply performs_bind; [apply performs_to_csv | apply performs_print]
      | done | done ].
Qed.

Lemma empty_table_generates_empty_files_witness :
  generate_augmented_vignettes (example_fs []) (txt "vignettes.csv")
    (Path (txt "out")) (txt "race_ethnicity") [txt "Black\Hispanic"]
    (World [] [])
  = Done ((), World
      (console (World [] []) ++ ((fun attr =>
         Generated 0 attr
           (Sub (Path (txt "out")) (vignettes_file (txt "race_ethnicity") attr)))
         <$> [txt "Black\Hispanic"]))
      (events (World [] []) ++ Mkdir (Path (txt "out"))
       :: ReadCsv (txt "vignettes.csv") []
       :: ((fun attr =>
              ToCsv (Sub (Path (txt "out"))
                         (vignettes_file (txt "race_ethnicity") attr)) [])
           <$> [txt "Black\Hispanic"]))).
Proof.
  apply (proj1 (empty_table_generates_empty_files (example_fs [])
                  (txt "vignettes.csv") (Path (txt "out"))
                  (txt "race_ethnicity") [txt "Black\Hispanic"] []
                  (World [] []))).
  calls_allowed.
Defined.

(** ** What the generators print and write *)

Lemma rewritable_warning_lines attr row :
  no_backslash attr → input_row row →
  warning_lines attr row
  = if rewritable row then []
    else match row !! "Generated_Vignette_Question", row !! "Vignette_Number" with
         | Some (Text q), Some vignette =>
             [Warning vignette attr; Original (take 100 q)]
         | _, _ => []
         end.
Proof.
  intros Hattr ([q HQ] & [v HV] & _). unfold warning_lines, rewritable.
  rewrite HQ, HV. pose proof (inject_plain_outcome q attr Hattr) as Hout.
  destruct (gives_up q); simpl.
  - by rewrite Hout.
  - by destruct Hout as (a & s & ->).
Qed.

(** X9: for attributes without a backslash and input rows, on a file
    system that lets the generator run, the per-attribute generator prints,
    for each attribute in turn, two lines (the warning and the excerpt) for
    every row the injector cannot rewrite, in the order of the rows,
    nothing for the other rows, and then one line whose count is the number
    of input rows: rows kept with their original question are counted as
    generated. *)
Theorem generated_count_is_table_length fs input out category attrs df w :
  Forall no_backslash attrs → Forall input_row df →
  allows fs (events w) (per_attribute_calls input out category attrs df) →
  ∃ w',
    generate_augmented_vignettes fs input out category attrs w
    = Done ((), w') ∧
    console w'
    = console w
      ++ mjoin ((fun attr =>
           mjoin ((fun row =>
             if rewritable row then []
             else match row !! "Generated_Vignette_Question",
                        row !! "Vignette_Number" with
                  | Some (Text q), Some vignette =>
                      [Warning vignette attr; Original (take 100 q)]
                  | _, _ => []
                  end) <$> df)
           ++ [Generated (length df) attr
                 (Sub out (vignettes_file category attr))])
         <$> attrs).
Proof.
  intros Hattrs Hdf Hfs. destruct w as [c h]. eexists.
  split; [by apply generate_augmented_vignettes_runs|]. simpl. f_equal. f_equal.
  apply Forall_fmap_ext_1. eapply Forall_impl; [exact Hattrs|].
  intros attr Hattr. simpl. f_equal. f_equal.
  apply Forall_fmap_ext_1. eapply Forall_impl; [exact Hdf|].
  intros row Hrow. simpl. by apply rewritable_warning_lines.
Qed.

Lemma generated_count_is_table_length_witness :
  ∃ w',
    generate_augmented_vignettes (example_fs [example_row_1; example_row_2])
      (txt "vignettes.csv") (Path (txt "out")) (txt "gender")
      [txt "male"; txt "female"] (World [] [])
    = Done ((), w') ∧
    console w'
    = console (World [] [])
      ++ mjoin ((fun attr =>
           mjoin ((fun row =>
             if rewritable row then []
             else match row !! "Generated_Vignette_Question",
                        row !! "Vignette_Number" with
                  | Some (Text q), Some vignette =>
                      [Warning vignette attr; Original (take 100 q)]
                  | _, _ => []
                  end) <$> [example_row_1; example_row_2])
           ++ [Generated (length [example_row_1; example_row_2]) attr
                 (Sub (Path (txt "out")) (vignettes_file (txt "gender") attr))])
         <$> [txt "male"; txt "female"]).
Proof.
  apply generated_count_is_table_length.
  - plain_attributes.
  - input_rows.
  - calls_allowed.
Defined.

Lemma compared_vignettes category attr1 attr2 row :
  no_backslash attr1 → no_backslash attr2 → paired_input_row row →
  (fun rec => rec !! "Vignette_Number") <$> compared category attr1 attr2 row
  = if rewritable row then [row !! "Vignette_Number"] else [].
Proof.
  intros H1 H2 ([q HQ] & [v HV] & [s HS] & [o HO] & [a HA]).
  pose proof (inject_plain_outcome q attr1 H1) as Hout1.
  pose proof (inject_plain_outcome q attr2 H2) as Hout2.
  unfold compared, rewritable, comparison_row, bind, getitem, call_inject,
    lift, ret.
  rewrite HQ, HV, HS, HO, HA. destruct (gives_up q); simpl.
  - by rewrite Hout1, Hout2.
  - destruct Hout1 as (a1 & s1 & ->). destruct Hout2 as (a2 & s2 & ->).
    cbn [fmap list_fmap].
    rewrite !lookup_insert_ne by done. by rewrite lookup_insert_eq.
Qed.

Lemma compared_table_vignettes category attr1 attr2 df :
  no_backslash attr1 → no_backslash attr2 → Forall paired_input_row df →
  (fun rec => rec !! "Vignette_Number")
    <$> mjoin (compared category attr1 attr2 <$> df)
  = (fun row => row !! "Vignette_Number")
    <$> filter (fun row => rewritable row = true) df.
Proof.
  intros H1 H2. induction 1 as [|row df Hrow _ IH]; [done|].
  rewrite fmap_cons.
  change (mjoin (compared category attr1 attr2 row
                 :: (compared category attr1 attr2 <$> df)))
    with (compared category attr1 attr2 row
          ++ mjoin (compared category attr1 attr2 <$> df)).
  rewrite fmap_app, IH, (compared_vignettes _ _ _ _ H1 H2 Hrow).
  rewrite filter_cons. destruct (rewritable row); by case_decide.
Qed.

(** X10: for pairs of attributes without a backslash and rows that have
    the fields a comparison copies, on a file system that lets the
    generator run, the comparison generator returns and has written one
    table per pair, in order, under the pair's file name; every table lists
    the vignettes whose question the injector can rewrite, in the order of
    the input, so all tables of a run have the same rows in the same
    places, whatever the pair. *)
Theorem comparison_tables_list_rewritable_rows
    fs input out category pairs df w :
  Forall (fun pair => no_backslash pair.1 ∧ no_backslash pair.2) pairs →
  Forall paired_input_row df →
  allows fs (events w) (comparison_calls input out category pairs df) →
  ∃ w' tables,
    generate_paired_comparisons fs input out category pairs w
    = Done ((), w') ∧
    written (events w') = written (events w) ++ tables ∧
    Forall2 (fun pair t =>
               t.1 = Sub (Sub out (txt "paired_comparisons"))
                         (comparison_file category pair.1 pair.2) ∧
               (fun rec => rec !! "Vignette_Number") <$> t.2
               = (fun row => row !! "Vignette_Number")
                 <$> filter (fun row => rewritable row = true) df)
            pairs tables.
Proof.
  intros Hpairs Hdf Hfs. destruct w as [c h].
  eexists _, ((fun pair =>
                 (Sub (Sub out (txt "paired_comparisons"))
                      (comparison_file category pair.1 pair.2),
                  mjoin (compared category pair.1 pair.2 <$> df))) <$> pairs).
  split; [by apply generate_paired_comparisons_runs|]. cbn [events console].
  split.
  - unfold comparison_calls, written. rewrite bind_app. f_equal.
    rewrite !bind_cons. cbn [app]. clear.
    induction pairs as [|pair pairs IH]; [done|].
    rewrite !fmap_cons, bind_cons. cbn [app]. by f_equal.
  - apply Forall2_fmap_r, Forall_Forall2_diag.
    eapply Forall_impl; [exact Hpairs|]. intros pair [H1 H2]. split; [done|].
    by apply compared_table_vignettes.
Qed.

Lemma comparison_tables_list_rewritable_rows_witness :
  ∃ w' tables,
    generate_paired_comparisons (example_fs [example_row_1; example_row_2])
      (txt "vignettes.csv") (Path (txt "out")) (txt "gender") gender_pairs
      (World [] [])
    = Done ((), w') ∧
    written (events w') = written (events (World [] [])) ++ tables ∧
    Forall2 (fun pair t =>
               t.1 = Sub (Sub (Path (txt "out")) (txt "paired_comparisons"))
                         (comparison_file (txt "gender") pair.1 pair.2) ∧
               (fun rec => rec !! "Vignette_Number") <$> t.2
               = (fun row => row !! "Vignette_Number")
                 <$> filter (fun row => rewritable row = true)
                       [example_row_1; example_row_2])
            gender_pairs tables.
Proof.
  apply comparison_tables_list_rewritable_rows.
  - plain_attributes.
  - input_rows.
  - unfold gender_pairs. calls_allowed.
Defined.

(** ** File names *)

Lemma replace_spaces_inj (a1 a2 : text) :
  "_"%char ∉ a1 → "_"%char ∉ a2 →
  replace_spaces a1 = replace_spaces a2 → a1 = a2.
Proof.
  unfold replace_spaces. revert a2.
  induction a1 as [|x a1 IH]; intros [|y a2]; try done.
  intros [Hx H1]%not_elem_of_cons [Hy H2]%not_elem_of_cons. simpl.
  intros [= Hxy Hrest]. f_equal; [|by apply IH].
  destruct (Ascii.eqb_spec x " "), (Ascii.eqb_spec y " "); congruence.
Qed.

(** X11: two attributes without an underscore get the same file name, for
    the same category, only if they are the same attribute: the name the
    generator builds tells the attribute.  (Whether two names stand for one
    file is for the file system to say.) *)
Theorem vignettes_file_distinct category attr1 attr2 :
  "_"%char ∉ attr1 → "_"%char ∉ attr2 →
  vignettes_file category attr1 = vignettes_file category attr2 →
  attr1 = attr2.
Proof.
  intros H1 H2. unfold vignettes_file. intros E.
  do 3 apply app_inv_head in E. apply app_inv_tail in E.
  by apply replace_spaces_inj.
Qed.

Lemma vignettes_file_distinct_witness :
  txt "cisgender man" = txt "cisgender man".
Proof.
  apply (vignettes_file_distinct (txt "gender_identity"));
    [compute_done | compute_done | reflexivity].
Defined.

(** ** The full run *)

Lemma bind_print {B : Type} (l : line) (k : unit → M B) w :
  bind (print l) k w = k () (World (console w ++ [l]) (events w)).
Proof. reflexivity. Qed.

Lemma bind_assoc {A B C : Type} (m : M A) (k1 : A → M B) (k2 : B → M C) w :
  bind (bind m k1) k2 w = bind m (fun a => bind (k1 a) k2) w.
Proof. unfold bind. by destruct (m w) as [[a w']|]. Qed.

Lemma bind_nil {A B : Type} (f : A → list B) : [] ≫= f = [].
Proof. reflexivity. Qed.

Lemma written_app es1 es2 : written (es1 ++ es2) = written es1 ++ written es2.
Proof. apply bind_app. Qed.

Lemma written_per_attribute_calls input out category attrs df :
  written (per_attribute_calls input out category attrs df)
  = (fun attr => (Sub out (vignettes_file category attr),
                  augmented category attr <$> df)) <$> attrs.
Proof.
  unfold per_attribute_calls, written. rewrite !bind_cons. cbn [app].
  induction attrs as [|attr attrs IH]; [done|].
  rewrite !fmap_cons, bind_cons. cbn [app]. by f_equal.
Qed.

Lemma written_comparison_calls input out category pairs df :
  written (comparison_calls input out category pairs df)
  = (fun pair => (Sub (Sub out (txt "paired_comparisons"))
                      (comparison_file category pair.1 pair.2),
                  mjoin (compared category pair.1 pair.2 <$> df))) <$> pairs.
Proof.
  unfold comparison_calls, written. rewrite !bind_cons. cbn [app].
  induction pairs as [|pair pairs IH]; [done|].
  rewrite !fmap_cons, bind_cons. cbn [app]. by f_equal.
Qed.

(** The tables of a full run: one per configured attribute, category by
    category, then one per compared pair, comparison by comparison. *)
Lemma written_full_run_calls input base df :
  written (full_run_calls input base df)
  = (SENSITIVE_ATTRIBUTES ≫= fun entry =>
       (fun attr => (Sub (Sub (Path base) entry.1)
                         (vignettes_file entry.1 attr),
                     augmented entry.1 attr <$> df)) <$> entry.2)
    ++ (comparisons ≫= fun entry =>
          (fun pair => (Sub (Sub (Path base) (txt "paired_comparisons"))
                            (comparison_file entry.1 pair.1 pair.2),
                        mjoin (compared entry.1 pair.1 pair.2 <$> df)))
          <$> entry.2).
Proof.
  unfold full_run_calls, SENSITIVE_ATTRIBUTES, comparisons.
  change (written (?e :: ?es)) with (written [e] ++ written es).
  rewrite !bind_cons, !bind_nil, !written_app, !written_per_attribute_calls,
    !written_comparison_calls.
  reflexivity.
Qed.

Local Ltac run_calls Hdf Hpaired :=
  cbv beta;
  lazymatch goal with
  | |- performs _ (bind _ _) _ _ _ =>
      eapply performs_bind; [run_calls Hdf Hpaired | run_calls Hdf Hpaired]
  | |- performs _ (print _) _ _ _ => apply performs_print
  | |- performs _ (mkdir _ _) _ _ _ => apply performs_mkdir
  | |- performs _ (ret _) _ _ _ => apply performs_ret
  | |- performs _ (generate_augmented_vignettes _ _ _ _ _) _ _ _ =>
      apply generate_augmented_vignettes_runs; [plain_attributes | exact Hdf]
  | |- performs _ (generate_paired_comparisons _ _ _ _ _) _ _ _ =>
      apply generate_paired_comparisons_runs; [plain_attributes | exact Hpaired]
  end.

(** On rows that both generators can read, a full run makes the calls of
    [full_run_calls] and returns, on every file system that lets it. *)
Lemma run_full_augmentation_runs fs input base df :
  Forall input_row df → Forall paired_input_row df →
  ∃ lines,
    performs fs (run_full_augmentation fs input base) () lines
      (full_run_calls input base df).
Proof.
  intros Hdf Hpaired. eexists.
  unfold run_full_augmentation, SENSITIVE_ATTRIBUTES.
  cbn [for_each fst snd]. cbv zeta.
  eapply performs_as; [run_calls Hdf Hpaired | reflexivity |].
  unfold full_run_calls, SENSITIVE_ATTRIBUTES, comparisons.
  rewrite !bind_cons, !bind_nil. cbn [fst snd app].
  rewrite ?app_nil_r, <- ?(assoc_L (++)). reflexivity.
Qed.

(** X12: on a table whose rows have a question text and the fields both
    generators read, and not yet the two added columns, and on a file
    system that lets the run make its directories, gives that table every
    time the input file is read, and lets the run write its files, a full
    run returns and has written twenty-one tables: first one per
    configured attribute, category by category, each with one row per
    input row, then one per compared pair, comparison by comparison. *)
Theorem full_run_writes_every_table fs input_csv_path output_base_dir df w :
  Forall input_row df → Forall paired_input_row df →
  allows fs (events w) (full_run_calls input_csv_path output_base_dir df) →
  ∃ w',
    run_full_augmentation fs input_csv_path output_base_dir w
    = Done ((), w') ∧
    events w'
    = events w ++ full_run_calls input_csv_path output_base_dir df ∧
    written (events w')
    = written (events w)
      ++ (SENSITIVE_ATTRIBUTES ≫= fun entry =>
            (fun attr => (Sub (Sub (Path output_base_dir) entry.1)
                              (vignettes_file entry.1 attr),
                          augmented entry.1 attr <$> df)) <$> entry.2)
      ++ (comparisons ≫= fun entry =>
            (fun pair =>
               (Sub (Sub (Path output_base_dir) (txt "paired_comparisons"))
                    (comparison_file entry.1 pair.1 pair.2),
                mjoin (compared entry.1 pair.1 pair.2 <$> df)))
            <$> entry.2) ∧
    length (written (events w')) = length (written (events w)) + 21.
Proof.
  intros Hdf Hpaired Hfs. destruct w as [c h].
  destruct (run_full_augmentation_runs fs input_csv_path output_base_dir df
              Hdf Hpaired) as [lines Hrun].
  eexists. split; [by apply Hrun|]. cbn [events]. split; [done|].
  rewrite written_app, written_full_run_calls. split; [done|].
  rewrite !length_app. unfold SENSITIVE_ATTRIBUTES, comparisons.
  rewrite !bind_cons, !bind_nil, !length_app, !length_fmap. simpl. lia.
Qed.

Lemma full_run_writes_every_table_witness :
  ∃ w',
    run_full_augmentation (example_fs [example_row_1; example_row_2])
      (txt "equitymedqa_converted_vignettes.csv") (txt "augmented_vignettes")
      (World [] [])
    = Done ((), w') ∧
    events w'
    = events (World [] [])
      ++ full_run_calls (txt "equitymedqa_converted_vignettes.csv")
           (txt "augmented_vignettes") [example_row_1; example_row_2] ∧
    written (events w')
    = written (events (World [] []))
      ++ (SENSITIVE_ATTRIBUTES ≫= fun entry =>
            (fun attr =>
               (Sub (Sub (Path (txt "augmented_vignettes")) entry.1)
                    (vignettes_file entry.1 attr),
                augmented entry.1 attr <$> [example_row_1; example_row_2]))
            <$> entry.2)
      ++ (comparisons ≫= fun entry =>
            (fun pair =>
               (Sub (Sub (Path (txt "augmented_vignettes"))
                         (txt "paired_comparisons"))
                    (comparison_file entry.1 pair.1 pair.2),
                mjoin (compared entry.1 pair.1 pair.2
                         <$> [example_row_1; example_row_2])))
            <$> entry.2) ∧
    length (written (events w'))
    = length (written (events (World [] []))) + 21.
Proof.
  apply full_run_writes_every_table.
  - input_rows.
  - input_rows.
  - unfold full_run_calls, SENSITIVE_ATTRIBUTES, comparisons, race_pairs,
      gender_pairs, gender_identity_pairs, socioeconomic_pairs,
      body_type_pairs.
    rewrite !bind_cons, !bind_nil. unfold per_attribute_calls, comparison_calls.
    cbn [fst snd app fmap list_fmap allows allowed].
    split_and!; first [exact I | reflexivity | vm_compute; reflexivity].
Defined.

(** X13: if the table the first generator reads has a row without a
    question text, a full run raises: it stops in the first per-attribute
    table, before any table is written. *)
Theorem full_run_aborts_on_unreadable_row
    fs input_csv_path output_base_dir df row w :
  csv_at fs
    (events w ++ [Mkdir (Path output_base_dir);
                  Mkdir (Sub (Path output_base_dir) (txt "race_ethnicity"))])
    input_csv_path
  = Some df →
  row ∈ df →
  (∀ q, row !! "Generated_Vignette_Question" ≠ Some (Text q)) →
  run_full_augmentation fs input_csv_path output_base_dir w = Raised.
Proof.
  intros Hread Hin Hno.
  unfold run_full_augmentation, SENSITIVE_ATTRIBUTES.
  cbn [for_each fst snd fmap list_fmap]. cbv zeta.
  repeat (first [rewrite bind_assoc | rewrite bind_print];
          cbv beta; cbn [events console]).
  unfold bind at 1. unfold mkdir at 1. cbn [events console].
  destruct (mkdir_ok fs (events w) (Path output_base_dir)); [|done].
  repeat (first [rewrite bind_assoc | rewrite bind_print];
          cbv beta; cbn [events console]).
  unfold bind at 1.
  rewrite (generate_augmented_vignettes_unreadable _ _ _ _ _ _ df row);
    [done| |done|done].
  cbn [events]. by rewrite <- (assoc_L (++)).
Qed.

Lemma full_run_aborts_on_unreadable_row_witness :
  run_full_augmentation
    (example_fs
       [example_row_1; delete "Generated_Vignette_Question" example_row_2])
    (txt "in.csv") (txt "out") (World [] [])
  = Raised.
Proof.
  apply (full_run_aborts_on_unreadable_row _ _ _
           [example_row_1; delete "Generated_Vignette_Question" example_row_2]
           (delete "Generated_Vignette_Question" example_row_2)).
  - reflexivity.
  - right. left.
  - intros q. by rewrite lookup_delete_eq.
Defined.

(** ** The two generators agree *)

(** X14: the first version in a comparison row is the question the
    per-attribute round gives the same row for the first attribute, and
    the second version the one it gives for the second attribute, whatever
    the attributes and the categories. *)
Theorem comparison_versions_are_augmented_questions
    category1 category2 category attr1 attr2 row out1 out2 rec w1 w2 w w1' w2' :
  augmented_row category1 attr1 row w1 = Done (out1, w1') →
  augmented_row category2 attr2 row w2 = Done (out2, w2') →
  comparison_row category attr1 attr2 row w = Done ([rec], w) →
  rec !! "Question_Version_1" = out1 !! "Generated_Vignette_Question" ∧
  rec !! "Question_Version_2" = out2 !! "Generated_Vignette_Question".
Proof.
  unfold augmented_row, comparison_row, bind, getitem, call_inject, lift, ret.
  destruct (row !! "Generated_Vignette_Question") as [[q| |]|]; try done.
  destruct (add_sensitive_to_question q attr1) as [[[|a1 s1]|]|]; try done;
    destruct (add_sensitive_to_question q attr2) as [[[|a2 s2]|]|]; try done.
  intros [= <- _] [= <- _].
  destruct (row !! "Vignette_Number"); [|done].
  destruct (row !! "Dataset_Source"); [|done].
  destruct (row !! "Original_Questions"); [|done].
  destruct (row !! "Answer"); [|done]. intros [= <-].
  split.
  - rewrite !lookup_insert_ne by done. rewrite !lookup_insert_eq.
    by rewrite !lookup_insert_ne, lookup_insert_eq by done.
  - rewrite !lookup_insert_ne by done. rewrite !lookup_insert_eq.
    by rewrite !lookup_insert_ne, lookup_insert_eq by done.
Qed.

Local Ltac round_on_example_row_1 attr v :=
  unfold augmented_row, comparison_row, bind, getitem, call_inject, lift, ret;
  repeat match goal with
    | |- context [example_row_1 !! ?k] =>
        let c := eval vm_compute in (example_row_1 !! k) in
        replace (example_row_1 !! k) with c by (vm_compute; reflexivity)
    end;
  repeat match goal with
    | |- context [add_sensitive_to_question ?q ?a] =>
        let c := eval vm_compute in (add_sensitive_to_question q a) in
        replace (add_sensitive_to_question q a) with c
          by (vm_compute; reflexivity)
    end;
  reflexivity.

Lemma comparison_versions_are_augmented_questions_witness :
  let v1 := txt "A male patient has asthma. What should the patient take?" in
  let v2 := txt "A female patient has asthma. What should the patient take?" in
  let out attr v :=
    <["Sensitive_Attribute_Value" := Text attr]>
      (<["Sensitive_Attribute_Category" := Text (txt "gender")]>
         (<["Generated_Vignette_Question" := Text v]> example_row_1)) in
  let rec :=
    <["Comparison_Type" := Text (txt "gender")]>
      (<["Expected_Answer" := Text (txt "An inhaled corticosteroid")]>
         (<["Attribute_2" := Text (txt "female")]>
            (<["Question_Version_2" := Text v2]>
               (<["Attribute_1" := Text (txt "male")]>
                  (<["Question_Version_1" := Text v1]>
                     (<["Original_Questions" :=
                          Text (txt "How is asthma treated?")]>
                        (<["Dataset_Source" := Text (txt "EquityMedQA")]>
                           (<["Vignette_Number" := Number 1]>
                              (∅ : gmap string cell))))))))) in
  rec !! "Question_Version_1"
  = out (txt "male") v1 !! "Generated_Vignette_Question" ∧
  rec !! "Question_Version_2"
  = out (txt "female") v2 !! "Generated_Vignette_Question".
Proof.
  intros v1 v2 out rec.
  apply (comparison_versions_are_augmented_questions
           (txt "gender") (txt "gender") (txt "gender") (txt "male")
           (txt "female") example_row_1 _ _ _
           (World [] []) (World [] []) (World [] [])
           (World [] []) (World [] [])).
  - round_on_example_row_1 (txt "male") v1.
  - round_on_example_row_1 (txt "female") v2.
  - round_on_example_row_1 (txt "male") v1.
Defined.
